(** * io-ts decoders (src/Decoder.ts) and their error report (src/Tree.ts)

    A shallow embedding of the experimental [Decoder] module of io-ts and
    of the [toTree] renderer, over a small model of JavaScript values with
    an explicit object store, followed by the properties of the decoders.

    - [JS]: values, the store, the state-and-exception monad of the
      decoders, and the operations of the language the decoders use.
    - [E], [DE], [S], [G]: fp-ts [Either], the errors, literals and guards.
    - [D]: the decoders, one definition per function of [Decoder.ts].
    - [Tree]: [toTree].
    - [Run], [Report], [Engine]: the definitions the statements are
      written with (reference runs of the members, the report as the
      specification words it, the family of decoders of the engine).
    - Properties: one theorem per property, named after the combinator. *)

From Stdlib Require Import ZArith Ascii String List Lia.
From Stdlib Require Import Floats.SpecFloat.
From stdpp Require Import base option list gmap strings pretty.

Open Scope string_scope.

Abbreviation Str := String.string.

(* ===================================================================== *)
(** * JavaScript values *)
(* ===================================================================== *)

Module JS.

(** Objects live in a store and are handled through references, so that
    two values can alias the same object, as in JavaScript. *)
Definition loc := positive.

(** A value of type [unknown]: a primitive or a reference to an object.
    Numbers are IEEE 754 doubles. Functions, symbols and big integers are
    not values of the model. *)
Inductive Val :=
| VUndefined
| VNull
| VBool (b : bool)
| VNum (n : spec_float)
| VStr (s : Str)
| VRef (l : loc).

(** A plain object holds its own enumerable data properties, in the
    order in which [for .. in] and [Object.keys] visit them; an array
    holds its elements (a hole reads as [undefined]). Objects are plain
    data, as [JSON.parse] or an object literal builds them: no inherited
    property, no accessor, no frozen object, and no key [__proto__]. *)
Inductive Cell :=
| CObj (props : list (Str * Val))
| CArr (elems : list Val).

Abbreviation Heap := (gmap loc Cell).

(** Abrupt completions. [TypeError] is the exception of strict-mode code
    (every ES module is strict) on an assignment to a property of a
    primitive; [Unsupported] marks a step outside the modelled fragment of
    the language; [OutOfFuel] ends the run of a self-referential decoder
    that is unfolded a bounded number of times. *)
Inductive Abrupt := TypeError | Unsupported | OutOfFuel.

Inductive Completion (A : Type) :=
| Normal (a : A) (h : Heap)
| Throw (x : Abrupt).
Arguments Normal {A} a h.
Arguments Throw {A} x.

(** Computations over the store. *)
Definition M (A : Type) : Type := Heap -> Completion A.

Definition ret {A} (a : A) : M A := fun h => Normal a h.

Definition bind {A B} (m : M A) (k : A -> M B) : M B :=
  fun h => match m h with
           | Normal a h' => k a h'
           | Throw x => Throw x
           end.

Definition throw {A} (x : Abrupt) : M A := fun _ => Throw x.

(** Reading the store without changing it. *)
Definition reads {A} (f : Heap -> A) : M A := fun h => Normal (f h) h.

(** ** Property maps *)

Fixpoint obj_lookup (k : Str) (ps : list (Str * Val)) : option Val :=
  match ps with
  | [] => None
  | (k', v) :: ps' => if String.eqb k k' then Some v else obj_lookup k ps'
  end.

(** [o[k] = v] on the property list of a plain object: an existing
    property keeps its place, a new one is enumerated last. (JavaScript
    enumerates the keys that are array indices before the others; no
    statement below depends on the place of a new key.) *)
Fixpoint obj_set (k : Str) (v : Val) (ps : list (Str * Val)) : list (Str * Val) :=
  match ps with
  | [] => [(k, v)]
  | (k', v') :: ps' =>
      if String.eqb k k' then (k, v) :: ps' else (k', v') :: obj_set k v ps'
  end.

(** ** Operations of the language used by the decoders *)

(** [{}] and [new Array(len)]: a fresh object. *)
Definition alloc (c : Cell) : M loc :=
  fun h => let l := fresh (dom h) in Normal l (<[l := c]> h).

(** [Object.prototype.toString.call(u) === '[object Object]'] *)
Definition is_plain_object (h : Heap) (u : Val) : bool :=
  match u with
  | VRef l => match h !! l with Some (CObj _) => true | _ => false end
  | _ => false
  end.

(** [Array.isArray(u)] *)
Definition is_array (h : Heap) (u : Val) : bool :=
  match u with
  | VRef l => match h !! l with Some (CArr _) => true | _ => false end
  | _ => false
  end.

(** [r[k]] for a record [r]: the property, or [undefined]. *)
Definition get_prop (r : Val) (k : Str) : M Val :=
  fun h => match r with
           | VRef l =>
               match h !! l with
               | Some (CObj ps) => Normal (default VUndefined (obj_lookup k ps)) h
               | _ => Throw Unsupported
               end
           | _ => Throw Unsupported
           end.

(** [Object.keys(r)] / the keys visited by [for (const k in r)]. *)
Definition own_keys (r : Val) : M (list Str) :=
  fun h => match r with
           | VRef l =>
               match h !! l with
               | Some (CObj ps) => Normal (ps.*1) h
               | _ => Throw Unsupported
               end
           | _ => Throw Unsupported
           end.

(** [a[k] = v]. On a primitive the assignment throws. The assignment of
    a named property to an array is outside the model. *)
Definition set_prop (a : Val) (k : Str) (v : Val) : M unit :=
  fun h => match a with
           | VRef l =>
               match h !! l with
               | Some (CObj ps) => Normal tt (<[l := CObj (obj_set k v ps)]> h)
               | _ => Throw Unsupported
               end
           | _ => Throw TypeError
           end.

(** [us.length] *)
Definition array_length (us : Val) : M nat :=
  fun h => match us with
           | VRef l =>
               match h !! l with
               | Some (CArr es) => Normal (length es) h
               | _ => Throw Unsupported
               end
           | _ => Throw Unsupported
           end.

(** [us[i]]: the element, or [undefined] past the end. *)
Definition get_index (us : Val) (i : nat) : M Val :=
  fun h => match us with
           | VRef l =>
               match h !! l with
               | Some (CArr es) => Normal (default VUndefined (es !! i)) h
               | _ => Throw Unsupported
               end
           | _ => Throw Unsupported
           end.

(** [a[i] = v] on an array; past the end the array grows. *)
Definition arr_set (i : nat) (v : Val) (es : list Val) : list Val :=
  if decide (i < length es) then <[i := v]> es
  else es ++ replicate (i - length es) VUndefined ++ [v].

Definition set_index (a : Val) (i : nat) (v : Val) : M unit :=
  fun h => match a with
           | VRef l =>
               match h !! l with
               | Some (CArr es) => Normal tt (<[l := CArr (arr_set i v es)]> h)
               | _ => Throw Unsupported
               end
           | _ => Throw TypeError
           end.

(** [a === b] *)
Definition strict_equals (a b : Val) : bool :=
  match a, b with
  | VUndefined, VUndefined => true
  | VNull, VNull => true
  | VBool x, VBool y => Bool.eqb x y
  | VNum x, VNum y => SFeqb x y
  | VStr x, VStr y => String.eqb x y
  | VRef x, VRef y => Pos.eqb x y
  | _, _ => false
  end.

(** [Number.isInteger(n)] *)
Definition Number_isInteger (u : Val) : bool :=
  match u with
  | VNum (S754_zero _) => true
  | VNum (S754_finite _ m e) =>
      if decide (0 <= e)%Z then true
      else Z.eqb (Z.pos m mod 2 ^ (- e)) 0
  | _ => false
  end.

(** ** [JSON.stringify] on a string (QuoteJSONString) *)

Definition hex_digit (n : nat) : ascii :=
  match n with
  | 0 => "0" | 1 => "1" | 2 => "2" | 3 => "3" | 4 => "4" | 5 => "5"
  | 6 => "6" | 7 => "7" | 8 => "8" | 9 => "9" | 10 => "a" | 11 => "b"
  | 12 => "c" | 13 => "d" | 14 => "e" | _ => "f"
  end%char.

Definition char_str (c : ascii) : Str := String c EmptyString.

Definition dquote : Str := char_str (ascii_of_nat 34).
Definition backslash : Str := char_str (ascii_of_nat 92).

Definition quote_char (c : ascii) : Str :=
  let n := nat_of_ascii c in
  if Nat.eqb n 34 then backslash ++ dquote
  else if Nat.eqb n 92 then backslash ++ backslash
  else if Nat.eqb n 8 then backslash ++ "b"
  else if Nat.eqb n 12 then backslash ++ "f"
  else if Nat.eqb n 10 then backslash ++ "n"
  else if Nat.eqb n 13 then backslash ++ "r"
  else if Nat.eqb n 9 then backslash ++ "t"
  else if Nat.ltb n 32 then
    backslash ++ "u00" ++ char_str (hex_digit (n / 16)) ++ char_str (hex_digit (n mod 16))
  else char_str c.

Fixpoint quote_chars (s : Str) : Str :=
  match s with
  | EmptyString => EmptyString
  | String c s' => quote_char c ++ quote_chars s'
  end.

Definition JSON_stringify_string (s : Str) : Str :=
  dquote ++ quote_chars s ++ dquote.

(** [as.join(sep)] *)
Fixpoint join (sep : Str) (ss : list Str) : Str :=
  match ss with
  | [] => EmptyString
  | [s] => s
  | s :: ss' => s ++ sep ++ join sep ss'
  end.

End JS.

Declare Scope js_scope.
Delimit Scope js_scope with js.
Notation "'let*' x := c 'in' k" := (JS.bind c (fun x => k))
  (at level 10, x name, c at level 100, k at level 200) : js_scope.

(* ===================================================================== *)
(** * fp-ts [Either] *)
(* ===================================================================== *)

Module E.

Inductive Either (L R : Type) :=
| Left (left : L)
| Right (right : R).
Arguments Left {L R} left.
Arguments Right {L R} right.

Definition isLeft {L R} (e : Either L R) : bool :=
  match e with Left _ => true | Right _ => false end.


Definition fromPredicate {L A} (predicate : A -> bool) (onFalse : A -> L)
  (a : A) : Either L A :=
  if predicate a then Right a else Left (onFalse a).

Definition mapLeft {L L' R} (f : L -> L') (e : Either L R) : Either L' R :=
  match e with Left l => Left (f l) | Right r => Right r end.

Definition map {L A B} (f : A -> B) (e : Either L A) : Either L B :=
  match e with Left l => Left l | Right a => Right (f a) end.

(** The failures of a list of results, in order. *)
Fixpoint lefts {L R} (outs : list (Either L R)) : list L :=
  match outs with
  | [] => []
  | Left l :: outs' => l :: lefts outs'
  | Right _ :: outs' => lefts outs'
  end.

(** The failures of a list of results listed by key or index. *)
Fixpoint keyed_lefts {K L R} (outs : list (K * Either L R)) : list (K * L) :=
  match outs with
  | [] => []
  | (k, Left l) :: outs' => (k, l) :: keyed_lefts outs'
  | (_, Right _) :: outs' => keyed_lefts outs'
  end.

(** The successes of a list of results listed by key or index. *)
Fixpoint keyed_rights {K L R} (outs : list (K * Either L R)) : list (K * R) :=
  match outs with
  | [] => []
  | (_, Left _) :: outs' => keyed_rights outs'
  | (k, Right r) :: outs' => (k, r) :: keyed_rights outs'
  end.

(** [either.ap]: the first failure, or the function applied to the value. *)
Definition ap {L A B} (mab : Either L (A -> B)) (ma : Either L A) : Either L B :=
  match mab with
  | Left l => Left l
  | Right f => match ma with Left l => Left l | Right a => Right (f a) end
  end.

End E.

(* ===================================================================== *)
(** * DecodeError (src/DecodeError.ts) *)
(* ===================================================================== *)

Module DE.
Import JS.

#[local] Unset Elimination Schemes.
(** Modelled from the spec: the five variants of a decoding failure
    (the module [./DecodeError] itself is not part of the sources). *)
Inductive DecodeError :=
| Leaf (expected : Str) (actual : Val)
| Indexed (expected : Str) (actual : Val) (errors : list (nat * DecodeError))
| Labeled (expected : Str) (actual : Val) (errors : list (Str * DecodeError))
| And (expected : Str) (actual : Val) (errors : list DecodeError)
| Or (expected : Str) (actual : Val) (errors : list DecodeError).
#[local] Set Elimination Schemes.

Definition leaf := Leaf.
Definition indexed := Indexed.
Definition labeled := Labeled.
Definition and := And.
Definition or := Or.

Definition expected (e : DecodeError) : Str :=
  match e with
  | Leaf x _ | Indexed x _ _ | Labeled x _ _ | And x _ _ | Or x _ _ => x
  end.

Definition actual (e : DecodeError) : Val :=
  match e with
  | Leaf _ a | Indexed _ a _ | Labeled _ a _ | And _ a _ | Or _ a _ => a
  end.

(** [{ ...e, expected }] *)
Definition with_expected (x : Str) (e : DecodeError) : DecodeError :=
  match e with
  | Leaf _ a => Leaf x a
  | Indexed _ a es => Indexed x a es
  | Labeled _ a es => Labeled x a es
  | And _ a es => And x a es
  | Or _ a es => Or x a es
  end.

(** The invariant of the data model: a composite node has at least one
    child, at every depth. *)
Fixpoint wf (e : DecodeError) : Prop :=
  match e with
  | Leaf _ _ => True
  | Indexed _ _ es =>
      es <> [] /\ (fix all l := match l with
                                 | [] => True
                                 | (_, e') :: l' => wf e' /\ all l'
                                 end) es
  | Labeled _ _ es =>
      es <> [] /\ (fix all l := match l with
                                 | [] => True
                                 | (_, e') :: l' => wf e' /\ all l'
                                 end) es
  | And _ _ es | Or _ _ es =>
      es <> [] /\ (fix all l := match l with
                                 | [] => True
                                 | e' :: l' => wf e' /\ all l'
                                 end) es
  end.


(** The number of nodes of an error. *)
Fixpoint size (e : DecodeError) : nat :=
  match e with
  | Leaf _ _ => 1
  | Indexed _ _ es => Datatypes.S (list_sum (List.map (fun ie => size ie.2) es))
  | Labeled _ _ es => Datatypes.S (list_sum (List.map (fun ke => size ke.2) es))
  | And _ _ es | Or _ _ es => Datatypes.S (list_sum (List.map size es))
  end.

(** Induction on an error, with the property for every child. *)
Section ErrorInduction.
Variable P : DecodeError -> Prop.
Hypothesis HLeaf : forall x a, P (Leaf x a).
Hypothesis HIndexed : forall x a es, Forall (fun ie => P ie.2) es -> P (Indexed x a es).
Hypothesis HLabeled : forall x a es, Forall (fun ke => P ke.2) es -> P (Labeled x a es).
Hypothesis HAnd : forall x a es, Forall P es -> P (And x a es).
Hypothesis HOr : forall x a es, Forall P es -> P (Or x a es).

Fixpoint DecodeError_ind (e : DecodeError) : P e :=
  match e with
  | Leaf x a => HLeaf x a
  | Indexed x a es =>
      HIndexed x a es
        ((fix go (l : list (nat * DecodeError)) : Forall (fun ie => P ie.2) l :=
            match l with
            | [] => @List.Forall_nil _ _
            | (i, c) :: l' => @List.Forall_cons _ _ (i, c) l' (DecodeError_ind c) (go l')
            end) es)
  | Labeled x a es =>
      HLabeled x a es
        ((fix go (l : list (Str * DecodeError)) : Forall (fun ke => P ke.2) l :=
            match l with
            | [] => @List.Forall_nil _ _
            | (k, c) :: l' => @List.Forall_cons _ _ (k, c) l' (DecodeError_ind c) (go l')
            end) es)
  | And x a es =>
      HAnd x a es
        ((fix go (l : list DecodeError) : Forall P l :=
            match l with
            | [] => @List.Forall_nil _ _
            | c :: l' => @List.Forall_cons _ _ c l' (DecodeError_ind c) (go l')
            end) es)
  | Or x a es =>
      HOr x a es
        ((fix go (l : list DecodeError) : Forall P l :=
            match l with
            | [] => @List.Forall_nil _ _
            | c :: l' => @List.Forall_cons _ _ c l' (DecodeError_ind c) (go l')
            end) es)
  end.

End ErrorInduction.

End DE.

(* ===================================================================== *)
(** * Literals (src/Schemable.ts) and guards (src/Guard.ts) *)
(* ===================================================================== *)

Module S.
Import JS.

(** Modelled from the spec: a literal is a primitive value
    (the module [./Schemable] is not part of the sources). *)
Inductive Literal :=
| LString (s : Str)
| LNumber (n : spec_float)
| LBoolean (b : bool)
| LNull.

Definition literal_value (a : Literal) : Val :=
  match a with
  | LString s => VStr s
  | LNumber n => VNum n
  | LBoolean b => VBool b
  | LNull => VNull
  end.

End S.

Module G.
Import JS.

(** A refinement of [unknown]: a test that may inspect the store. *)
Definition Refinement := Heap -> Val -> bool.

(** Modelled from the spec: the type-membership tests of the primitive
    decoders (the module [./Guard] is not part of the sources); a record
    is a plain key-value mapping, the test that [intersection] spells out
    with [Object.prototype.toString]. *)
Definition string_is : Refinement :=
  fun _ u => match u with VStr _ => true | _ => false end.

Definition number_is : Refinement :=
  fun _ u => match u with VNum _ => true | _ => false end.

Definition boolean_is : Refinement :=
  fun _ u => match u with VBool _ => true | _ => false end.

Definition UnknownArray_is : Refinement := is_array.

Definition UnknownRecord_is : Refinement := is_plain_object.

(** Modelled from the spec: membership in a set of literals, by value
    equality. *)
Definition literals_is (as_ : list S.Literal) : Refinement :=
  fun _ u => existsb (fun a => strict_equals (S.literal_value a) u) as_.

End G.

(* ===================================================================== *)
(** * Decoders (src/Decoder.ts) *)
(* ===================================================================== *)

Module D.
Import JS E DE.
Local Open Scope js_scope.

(** ** model *)

Definition Result := Either DecodeError Val.

Definition Decoder := Val -> M Result.

(** Modelled from the spec: [isNonEmpty] of [./util], which is not part of
    the sources; the failure accumulator is non-empty. *)
Definition isNonEmpty {A} (as_ : list A) : bool :=
  match as_ with [] => false | _ :: _ => true end.

(** Modelled from the spec: [hasOwnProperty(def, v)] of [./util] followed
    by [def[v]]; [v] is a declared key of the mapping, and its decoder. *)
Fixpoint def_lookup (k : Str) (def : list (Str * Decoder)) : option Decoder :=
  match def with
  | [] => None
  | (k', d) :: def' => if String.eqb k k' then Some d else def_lookup k def'
  end.

Section Decoders.

(** [showLiteral] of [./util], which is not part of the sources. *)
Variable showLiteral : S.Literal -> Str.

(** ** constructors *)

Definition fromRefinement (refinement : G.Refinement) (expected : Str) : Decoder :=
  fun u => reads (fun h => fromPredicate (refinement h) (fun u => leaf expected u) u).

Definition literals (as_ : list S.Literal) : Decoder :=
  fromRefinement (G.literals_is as_) (join " | " (List.map showLiteral as_)).

(** ** primitives *)

Definition never : Decoder :=
  fun u => ret (Left (leaf "never" u)).

Definition string : Decoder := fromRefinement G.string_is "string".

Definition number : Decoder := fromRefinement G.number_is "number".

Definition boolean : Decoder := fromRefinement G.boolean_is "boolean".

Definition UnknownArray : Decoder := fromRefinement G.UnknownArray_is "Array<unknown>".

Definition UnknownRecord : Decoder :=
  fromRefinement G.UnknownRecord_is "Record<string, unknown>".

(** ** combinators *)

Definition mapLeft (decoder : Decoder) (f : DecodeError -> DecodeError) : Decoder :=
  fun u => let* e := decoder u in ret (E.mapLeft f e).

Definition withExpected (decoder : Decoder) (expected : Str) : Decoder :=
  mapLeft decoder (with_expected expected).

Definition refinement (decoder : Decoder) (refinement : G.Refinement)
  (expected : Str) : Decoder :=
  fun u =>
    let* e := decoder u in
    match e with
    | Left _ => ret e
    | Right a => reads (fun h => fromPredicate (refinement h) (fun a => leaf expected a) a)
    end.

Definition Int : Decoder :=
  refinement number (fun _ n => Number_isInteger n) "Int".

(** The loop of [type]: [for (const k in decoders)]. *)
Fixpoint type_loop (r a : Val) (decoders : list (Str * Decoder))
  (es : list (Str * DecodeError)) : M (list (Str * DecodeError)) :=
  match decoders with
  | [] => ret es
  | (k, d) :: rest =>
      let* rk := get_prop r k in
      let* e := d rk in
      match e with
      | Left err => type_loop r a rest (es ++ [(k, err)])
      | Right v => let* _ := set_prop a k v in type_loop r a rest es
      end
  end.

Definition type (decoders : list (Str * Decoder)) : Decoder :=
  fun u =>
    let* e := UnknownRecord u in
    match e with
    | Left _ => ret e
    | Right r =>
        let* a := alloc (CObj []) in
        let* es := type_loop r (VRef a) decoders [] in
        ret (if isNonEmpty es then Left (labeled "type" u es) else Right (VRef a))
    end.

(** The loop of [partial]: a key whose value is [undefined] is skipped. *)
Fixpoint partial_loop (r a : Val) (decoders : list (Str * Decoder))
  (es : list (Str * DecodeError)) : M (list (Str * DecodeError)) :=
  match decoders with
  | [] => ret es
  | (k, d) :: rest =>
      let* rk := get_prop r k in
      if negb (strict_equals rk VUndefined) then
        let* rk := get_prop r k in
        let* e := d rk in
        match e with
        | Left err => partial_loop r a rest (es ++ [(k, err)])
        | Right v => let* _ := set_prop a k v in partial_loop r a rest es
        end
      else partial_loop r a rest es
  end.

Definition partial (decoders : list (Str * Decoder)) : Decoder :=
  fun u =>
    let* e := UnknownRecord u in
    match e with
    | Left _ => ret e
    | Right r =>
        let* a := alloc (CObj []) in
        let* es := partial_loop r (VRef a) decoders [] in
        ret (if isNonEmpty es then Left (labeled "partial" u es) else Right (VRef a))
    end.

(** The loop of [record]: [for (const k in r)]. *)
Fixpoint record_loop (decoder : Decoder) (r a : Val) (keys : list Str)
  (es : list (Str * DecodeError)) : M (list (Str * DecodeError)) :=
  match keys with
  | [] => ret es
  | k :: rest =>
      let* rk := get_prop r k in
      let* e := decoder rk in
      match e with
      | Left err => record_loop decoder r a rest (es ++ [(k, err)])
      | Right v => let* _ := set_prop a k v in record_loop decoder r a rest es
      end
  end.

Definition record (decoder : Decoder) : Decoder :=
  fun u =>
    let* e := UnknownRecord u in
    match e with
    | Left _ => ret e
    | Right r =>
        let* a := alloc (CObj []) in
        let* keys := own_keys r in
        let* es := record_loop decoder r (VRef a) keys [] in
        ret (if isNonEmpty es then Left (labeled "record" u es) else Right (VRef a))
    end.

(** The loop of [array]: [for (let i = 0; i < len; i++)], over the
    indices [i, i+1, ..] still to visit. *)
Fixpoint array_loop (decoder : Decoder) (us a : Val) (indices : list nat)
  (es : list (nat * DecodeError)) : M (list (nat * DecodeError)) :=
  match indices with
  | [] => ret es
  | i :: rest =>
      let* ui := get_index us i in
      let* e := decoder ui in
      match e with
      | Left err => array_loop decoder us a rest (es ++ [(i, err)])
      | Right v => let* _ := set_index a i v in array_loop decoder us a rest es
      end
  end.

Definition array (decoder : Decoder) : Decoder :=
  fun u =>
    let* e := UnknownArray u in
    match e with
    | Left _ => ret e
    | Right us =>
        let* len := array_length us in
        let* a := alloc (CArr (replicate len VUndefined)) in
        let* es := array_loop decoder us (VRef a) (seq 0 len) [] in
        ret (if isNonEmpty es then Left (indexed "array" u es) else Right (VRef a))
    end.

(** The loop of [tuple], from index [i] on, over the decoders
    [decoders[i], decoders[i+1], ..]. *)
Fixpoint tuple_loop (us a : Val) (i : nat) (decoders : list Decoder)
  (es : list (nat * DecodeError)) : M (list (nat * DecodeError)) :=
  match decoders with
  | [] => ret es
  | d :: rest =>
      let* ui := get_index us i in
      let* e := d ui in
      match e with
      | Left err => tuple_loop us a (Datatypes.S i) rest (es ++ [(i, err)])
      | Right v => let* _ := set_index a i v in tuple_loop us a (Datatypes.S i) rest es
      end
  end.

Definition tuple (decoders : list Decoder) : Decoder :=
  fun u =>
    let* e := UnknownArray u in
    match e with
    | Left _ => ret e
    | Right us =>
        let len := length decoders in
        let* a := alloc (CArr (replicate len VUndefined)) in
        let* es := tuple_loop us (VRef a) 0 decoders [] in
        ret (if isNonEmpty es then Left (indexed "tuple" u es) else Right (VRef a))
    end.

(** The local array [as] of [intersection] may have holes: [as[i] = v]
    with [i] past the end leaves the positions in between empty. *)
Definition sparse_set (i : nat) (v : Val) (as_ : list (option Val)) : list (option Val) :=
  if decide (i < length as_) then <[i := Some v]> as_
  else as_ ++ replicate (i - length as_) None ++ [Some v].

(** [as.some(a => Object.prototype.toString.call(a) !== '[object Object]')];
    [some] does not visit holes. *)
Definition some_not_plain (h : Heap) (as_ : list (option Val)) : bool :=
  existsb (fun o => match o with
                    | Some a => negb (is_plain_object h a)
                    | None => false
                    end) as_.

(** [as[as.length - 1]] *)
Definition last_element (as_ : list (option Val)) : Val :=
  match last as_ with
  | Some (Some a) => a
  | _ => VUndefined
  end.

(** [Object.assign(target, ...sources)]: every own property of every
    source is assigned to the target, in order; a hole of the spread
    array is [undefined], and an [undefined] source is skipped. *)
Fixpoint assign_props (target : Val) (ps : list (Str * Val)) : M unit :=
  match ps with
  | [] => ret tt
  | (k, v) :: ps' => let* _ := set_prop target k v in assign_props target ps'
  end.

Definition assign_source (target : Val) (source : option Val) : M unit :=
  match source with
  | None | Some VUndefined | Some VNull => ret tt
  | Some (VRef l) =>
      let* c := reads (fun h => h !! l) in
      match c with
      | Some (CObj ps) => assign_props target ps
      | _ => throw Unsupported
      end
  | Some _ => throw Unsupported
  end.

Fixpoint Object_assign (target : Val) (sources : list (option Val)) : M unit :=
  match sources with
  | [] => ret tt
  | s :: rest => let* _ := assign_source target s in Object_assign target rest
  end.

(** The loop of [intersection], from index [i] on. *)
Fixpoint intersection_loop (u : Val) (i : nat) (decoders : list Decoder)
  (as_ : list (option Val)) (es : list DecodeError)
  : M (list (option Val) * list DecodeError) :=
  match decoders with
  | [] => ret (as_, es)
  | d :: rest =>
      let* e := d u in
      match e with
      | Left err => intersection_loop u (Datatypes.S i) rest as_ (es ++ [err])
      | Right v => intersection_loop u (Datatypes.S i) rest (sparse_set i v as_) es
      end
  end.

Definition intersection (decoders : list Decoder) : Decoder :=
  fun u =>
    let len := length decoders in
    if Nat.eqb len 0 then ret (Right u)
    else
      let* r := intersection_loop u 0 decoders [] [] in
      let as_ := r.1 in
      let es := r.2 in
      let* not_plain := reads (fun h => some_not_plain h as_) in
      let* a :=
        (if not_plain then ret (last_element as_)
         else let* t := alloc (CObj []) in
              let* _ := Object_assign (VRef t) as_ in
              ret (VRef t)) in
      ret (if isNonEmpty es then Left (and "intersection" u es) else Right a).

(** [lazy]: the decoder is built by [f] on the first call and kept. As
    [f] is a function of the logic, building it again gives the same
    decoder, and the memo cell is not represented. *)
Definition lazy (f : unit -> Decoder) : Decoder :=
  fun u => f tt u.

Definition sum (tag : Str) (def : list (Str * Decoder)) : Decoder :=
  let keys := def.*1 in
  if Nat.eqb (length keys) 0 then never
  else
    let expected := join " | " (List.map JSON_stringify_string keys) in
    fun u =>
      let* e := UnknownRecord u in
      match e with
      | Left _ => ret e
      | Right r =>
          let* v := get_prop r tag in
          match v with
          | VStr s =>
              match def_lookup s def with
              | Some d =>
                  let* er := d u in
                  match er with
                  | Left _ => ret er
                  | Right a => let* _ := set_prop a tag v in ret er
                  end
              | None => ret (Left (labeled "sum" u [(tag, leaf expected v)]))
              end
          | _ => ret (Left (labeled "sum" u [(tag, leaf expected v)]))
          end
      end.

(** The loop of [union], over [decoders[1], decoders[2], ..]. *)
Fixpoint union_loop (u : Val) (decoders : list Decoder) (es : list DecodeError)
  : M Result :=
  match decoders with
  | [] => ret (Left (or "union" u es))
  | d :: rest =>
      let* e := d u in
      match e with
      | Right _ => ret e
      | Left err => union_loop u rest (es ++ [err])
      end
  end.

Definition union (decoders : list Decoder) : Decoder :=
  match decoders with
  | [] => never
  | d0 :: rest =>
      fun u =>
        let* e := d0 u in
        match e with
        | Right _ => ret e
        | Left err => union_loop u rest [err]
        end
  end.

Definition literalsOr (as_ : list S.Literal) (decoder : Decoder) : Decoder :=
  union [literals as_; decoder].

(** ** instances

    [map], [of] (here [of_]), [alt], [zero] and [ap] of the instance
    [decoder]. *)

Definition map (fa : Decoder) (f : Heap -> Val -> Val) : Decoder :=
  fun u =>
    let* e := fa u in
    match e with
    | Left _ => ret e
    | Right a => reads (fun h => Right (f h a))
    end.

Definition of_ (a : Val) : Decoder :=
  fun _ => ret (Right a).

Definition alt (fx : Decoder) (fy : unit -> Decoder) : Decoder :=
  fun u =>
    let* e := fx u in
    match e with
    | Left _ => fy tt u
    | Right _ => ret e
    end.

Definition zero : Decoder := never.

(** [ap]: both decoders are applied to the input, [fab] first, before
    [either.ap] combines the results. The functions that [fab] decodes to
    are not values of the model: [fab] is a decoder to functions that read
    the store, as the function given to [map]. *)
Definition ap (fab : Val -> M (Either DecodeError (Heap -> Val -> Val)))
  (fa : Decoder) : Decoder :=
  fun u =>
    let* mab := fab u in
    let* ma := fa u in
    reads (fun h => E.ap (E.map (fun f => f h) mab) ma).

End Decoders.

End D.

(* ===================================================================== *)
(** * The error report (src/Tree.ts) *)
(* ===================================================================== *)

Module Tree.
Import JS DE.

(** fp-ts [Tree]: a label and a forest of subtrees. *)
#[local] Unset Elimination Schemes.
Inductive Tree (A : Type) :=
| make (value : A) (forest : list (Tree A)).
#[local] Set Elimination Schemes.
Arguments make {A} value forest.

Definition value {A} (t : Tree A) : A :=
  match t with make v _ => v end.

Definition forest {A} (t : Tree A) : list (Tree A) :=
  match t with make _ f => f end.

Section ToTree.

(** [JSON.stringify] on a value of the store that it serialises: the
    JSON text, or [None] when the result is [undefined]. *)
Variable JSON_stringify : Heap -> Val -> option Str.

(** The store in which the report is rendered. *)
Variable h : Heap.

(** A template literal renders [undefined] by its name. *)
Definition template (o : option Str) : Str := default "undefined" o.

Definition value_of (e : DecodeError) : Str :=
  "Cannot decode " ++ template (JSON_stringify h (actual e))
    ++ ", expected " ++ expected e.

Fixpoint toTree (e : DecodeError) : Tree Str :=
  match e with
  | Leaf _ _ => make (value_of e) []
  | Indexed _ _ errors =>
      make (value_of e)
        (List.map (fun ie => let '(i, e) := ie in
                             let t := toTree e in
                             make ("(" ++ pretty (i : nat) ++ ") " ++ value t) (forest t))
           errors)
  | Labeled _ _ errors =>
      make (value_of e)
        (List.map (fun ke => let '(k, e) := ke in
                             let t := toTree e in
                             make ("(" ++ JSON_stringify_string k ++ ") " ++ value t) (forest t))
           errors)
  | And _ _ errors
  | Or _ _ errors => make (value_of e) (List.map toTree errors)
  end.

End ToTree.

End Tree.

(* ===================================================================== *)
(** * Reference runs

    The statements below compare a combinator with a run of its member
    decoders in which nothing depends on an earlier failure. *)
(* ===================================================================== *)

Module Run.
Import JS E DE D.
Local Open Scope js_scope.

(** Every decoder of the list applied to the same input, one after the
    other; the results in order. *)
Fixpoint run_same (ds : list Decoder) (u : Val) : M (list Result) :=
  match ds with
  | [] => ret []
  | d :: rest =>
      let* e := d u in
      let* out := run_same rest u in
      ret (e :: out)
  end.

(** Every member decoded in turn on the input fetched for its key; a
    success is stored under the key; the results in order, by key. Members
    whose input is not [wanted] are left out. *)
Fixpoint run_members {K} (wanted : Val -> bool) (fetch : K -> M Val)
  (store : K -> Val -> M unit) (members : list (K * Decoder))
  : M (list (K * Result)) :=
  match members with
  | [] => ret []
  | (k, d) :: rest =>
      let* x := fetch k in
      if wanted x then
        let* e := d x in
        let* _ := (match e with
                   | Left _ => ret tt
                   | Right v => store k v
                   end) in
        let* out := run_members wanted fetch store rest in
        ret ((k, e) :: out)
      else run_members wanted fetch store rest
  end.

(** The members of [tuple] and of [array], by position. *)
Definition by_index (i : nat) (ds : list Decoder) : list (nat * Decoder) :=
  zip (seq i (length ds)) ds.

(** The result of a structural decoder from the results of its members. *)
Definition collect {K} (wrap : list (K * DecodeError) -> DecodeError) (a : loc)
  (out : list (K * Result)) : Result :=
  match keyed_lefts out with
  | [] => Right (VRef a)
  | es => Left (wrap es)
  end.

Definition not_undefined (x : Val) : bool := negb (strict_equals x VUndefined).

Definition type_run (decoders : list (Str * Decoder)) (u : Val)
  : M (loc * list (Str * Result)) :=
  let* a := alloc (CObj []) in
  let* out := run_members (fun _ => true) (get_prop u) (set_prop (VRef a)) decoders in
  ret (a, out).

Definition partial_run (decoders : list (Str * Decoder)) (u : Val)
  : M (loc * list (Str * Result)) :=
  let* a := alloc (CObj []) in
  let* out := run_members not_undefined (get_prop u) (set_prop (VRef a)) decoders in
  ret (a, out).

Definition record_run (decoder : Decoder) (u : Val)
  : M (loc * list (Str * Result)) :=
  let* a := alloc (CObj []) in
  let* keys := own_keys u in
  let* out := run_members (fun _ => true) (get_prop u) (set_prop (VRef a))
                (List.map (fun k => (k, decoder)) keys) in
  ret (a, out).

Definition array_run (decoder : Decoder) (u : Val)
  : M (loc * list (nat * Result)) :=
  let* len := array_length u in
  let* a := alloc (CArr (replicate len VUndefined)) in
  let* out := run_members (fun _ => true) (get_index u) (set_index (VRef a))
                (List.map (fun i => (i, decoder)) (seq 0 len)) in
  ret (a, out).

Definition tuple_run (decoders : list Decoder) (u : Val)
  : M (loc * list (nat * Result)) :=
  let* a := alloc (CArr (replicate (length decoders) VUndefined)) in
  let* out := run_members (fun _ => true) (get_index u) (set_index (VRef a))
                (by_index 0 decoders) in
  ret (a, out).

(** The number of failed members. *)
Definition failed {K} (out : list (K * Result)) : list (K * Result) :=
  List.filter (fun o => isLeft o.2) out.


(** Member [i], [i+1], .. of a tuple applied to the given inputs. *)
Fixpoint run_on (a : Val) (i : nat) (ds : list Decoder) (inputs : list Val)
  : M (list (nat * Result)) :=
  match ds, inputs with
  | d :: rest, x :: inputs' =>
      let* e := d x in
      let* _ := (match e with
                 | Left _ => ret tt
                 | Right v => set_index a i v
                 end) in
      let* out := run_on a (Datatypes.S i) rest inputs' in
      ret ((i, e) :: out)
  | _, _ => ret []
  end.

(** The value of key [k] in the shallow merge of the records [rs]: that
    of the last record that has the key. *)
Fixpoint lookup_last (k : Str) (rs : list (list (Str * Val))) : option Val :=
  match rs with
  | [] => None
  | r :: rs' =>
      match lookup_last k rs' with
      | Some v => Some v
      | None => obj_lookup k r
      end
  end.

(** The local array [as] of [intersection] after the results [out] of the
    members [i], [i+1], ..: a success is stored at its position. *)
Fixpoint fill (i : nat) (out : list Result) (as_ : list (option Val))
  : list (option Val) :=
  match out with
  | [] => as_
  | Left _ :: out' => fill (Datatypes.S i) out' as_
  | Right v :: out' => fill (Datatypes.S i) out' (sparse_set i v as_)
  end.

(** The properties of [r] assigned one by one to the property list [t],
    and the list obtained from the empty record by assigning the records
    [rs] in order. *)
Definition assign (t r : list (Str * Val)) : list (Str * Val) :=
  fold_left (fun acc kv => obj_set kv.1 kv.2 acc) r t.

Definition merge (rs : list (list (Str * Val))) : list (Str * Val) :=
  fold_left assign rs [].

(** The elements of an array, [[]] for anything else. *)
Definition elems_of (h : Heap) (v : Val) : list Val :=
  match v with
  | VRef l => match h !! l with Some (CArr es) => es | _ => [] end
  | _ => []
  end.

(** The record behind a plain object, [[]] for anything else. *)
Definition props_of (h : Heap) (v : Val) : list (Str * Val) :=
  match v with
  | VRef l => match h !! l with Some (CObj ps) => ps | _ => [] end
  | _ => []
  end.

(** The failure of a structural decoder lists every failed member: when
    some member failed, the result [res] is the single failure [wrap es]
    in the final store [h1], with one child per failed member, under the
    key of that member and with its error, in order. *)
Definition reports_all {K} (wrap : list (K * DecodeError) -> DecodeError)
  (out : list (K * Result)) (res : Completion Result) (h1 : Heap) : Prop :=
  failed out <> [] ->
  exists es, res = Normal (Left (wrap es)) h1
             /\ length es = length (failed out)
             /\ es.*1 = (failed out).*1
             /\ forall k e, In (k, e) es <-> In (k, Left e) out.

(** The records behind the values stored in [as]. *)
Definition records (h : Heap) (as_ : list (option Val)) : list (list (Str * Val)) :=
  omap (fun o => props_of h <$> o) as_.

(** The value read at position [j] of an array of elements [elems]. *)
Definition read_at (elems : list Val) (j : nat) : Val :=
  default VUndefined (elems !! j).

(** A decoder whose failures satisfy the invariant of the data model. *)
Definition well_formed_errors (d : Decoder) : Prop :=
  forall u h e h', d u h = Normal (Left e) h' -> wf e.

(** The two kinds of objects. *)
Definition is_obj (c : Cell) : Prop := exists ps, c = CObj ps.
Definition is_arr (c : Cell) : Prop := exists es, c = CArr es.

(** A completion that returns and leaves every existing object as it is,
    with a success that is the input itself or an object that did not
    exist before the call (or a primitive that is the input), and a plain
    record when the input is one. *)
Definition returns_safely (u : Val) (h : Heap) (res : Completion Result) : Prop :=
  exists r h',
    res = Normal r h'
    /\ h ⊆ h'
    /\ forall a, r = Right a ->
         (a = u \/ exists l, a = VRef l /\ h !! l = None)
         /\ (is_plain_object h u = true -> is_plain_object h' a = true).

(** A decoder that returns safely on every input; with [rec], it may
    also stop at the bound of its unfoldings. *)
Definition input_safe (rec : bool) (d : Decoder) : Prop :=
  forall u h,
    returns_safely u h (d u h) \/ (rec = true /\ d u h = Throw OutOfFuel).

(** A decoder that leaves every existing object as it is. *)
Definition preserving (d : Decoder) : Prop :=
  forall u h r h', d u h = Normal r h' -> h ⊆ h'.

End Run.

(* ===================================================================== *)
(** * The report as a list of indented lines *)
(* ===================================================================== *)

Module Report.
Import JS DE Tree.

(** The labels of a tree in depth-first order, each with its depth. *)
Fixpoint lines {A} (depth : nat) (t : Tree A) : list (nat * A) :=
  match t with
  | make v f => (depth, v) :: List.flat_map (lines (Datatypes.S depth)) f
  end.

(** [make (prefix ++ t.value) t.forest] *)
Definition prefixed (prefix : Str) (t : Tree Str) : Tree Str :=
  make (prefix ++ value t) (forest t).

Section Report.

Variable JSON_stringify : Heap -> Val -> option Str.
Variable h : Heap.

(** The report of an error, as the specification words it: one line per
    node, at the depth of the node, a child of an [Indexed] node prefixed
    by its index, a child of a [Labeled] node by its quoted key. *)
Fixpoint report (depth : nat) (prefix : Str) (e : DecodeError) : list (nat * Str) :=
  (depth, prefix ++ "Cannot decode " ++ template (JSON_stringify h (actual e))
            ++ ", expected " ++ expected e)
  :: match e with
     | Leaf _ _ => []
     | Indexed _ _ errors =>
         List.flat_map (fun ie => let '(i, c) := ie in
                                  report (Datatypes.S depth) ("(" ++ pretty (i : nat) ++ ") ") c)
           errors
     | Labeled _ _ errors =>
         List.flat_map (fun ke => let '(k, c) := ke in
                                  report (Datatypes.S depth)
                                    ("(" ++ JSON_stringify_string k ++ ") ") c)
           errors
     | And _ _ errors
     | Or _ _ errors =>
         List.flat_map (report (Datatypes.S depth) EmptyString) errors
     end.

End Report.

End Report.

(* ===================================================================== *)
(** * The decoders of the engine *)
(* ===================================================================== *)

Module Engine.
Import JS E DE D.
Local Open Scope js_scope.

(** A self-referential decoder [const d = lazy(() => body(d))], unfolded
    [fuel] times: the innermost reference stops the run. A run of the
    unfolding that returns is a run of [d]. *)
Definition out_of_fuel : Decoder := fun _ => throw OutOfFuel.

Fixpoint self_referential (body : Decoder -> Decoder) (fuel : nat) : Decoder :=
  match fuel with
  | 0 => out_of_fuel
  | Datatypes.S n => lazy (fun _ => body (self_referential body n))
  end.

(** The decoders built from the constructors, primitives and combinators
    of the module, and [alt]; with [rec], also the unfoldings of
    self-referential decoders. The refinements given by the caller are
    tests, and the function given to [mapLeft] returns a well-formed error
    (its result type has non-empty lists of children). *)
Inductive engine (rec : bool) : Decoder -> Prop :=
| eng_fromRefinement p x : engine rec (fromRefinement p x)
| eng_never : engine rec never
| eng_out_of_fuel : rec = true -> engine rec out_of_fuel
| eng_mapLeft d f :
    engine rec d -> (forall e, wf e -> wf (f e)) -> engine rec (mapLeft d f)
| eng_refinement d p x : engine rec d -> engine rec (refinement d p x)
| eng_type ds : engines rec ds.*2 -> engine rec (type ds)
| eng_partial ds : engines rec ds.*2 -> engine rec (partial ds)
| eng_record d : engine rec d -> engine rec (record d)
| eng_array d : engine rec d -> engine rec (array d)
| eng_tuple ds : engines rec ds -> engine rec (tuple ds)
| eng_intersection ds : engines rec ds -> engine rec (intersection ds)
| eng_lazy f : engine rec (f tt) -> engine rec (lazy f)
| eng_sum tag def : engines rec def.*2 -> engine rec (sum tag def)
| eng_union ds : engines rec ds -> engine rec (union ds)
| eng_alt fx fy : engine rec fx -> engine rec (fy tt) -> engine rec (alt fx fy)
with engines (rec : bool) : list Decoder -> Prop :=
| engs_nil : engines rec []
| engs_cons d ds : engine rec d -> engines rec ds -> engines rec (d :: ds).

Scheme engine_mut := Minimality for engine Sort Prop
  with engines_mut := Minimality for engines Sort Prop.

End Engine.

(* ===================================================================== *)
(** * Example stores and inputs *)
(* ===================================================================== *)

Module Examples.
Import JS E DE D.

Definition one : Val := VNum (S754_finite false 1 0).

(** [{ a: 1, b: "x", c: true }] at 1, [["x", 1, true]] at 2,
    [{ _tag: "A", a: "x" }] at 3, [{ _tag: "B" }] at 4, [["a"]] at 5,
    [{ a: 1 }] at 6 and [{ a: "y", b: 1 }] at 7. *)
Definition store : Heap :=
  <[1%positive := CObj [("a", one); ("b", VStr "x"); ("c", VBool true)]]>
  (<[2%positive := CArr [VStr "x"; one; VBool true]]>
  (<[3%positive := CObj [("_tag", VStr "A"); ("a", VStr "x")]]>
  (<[4%positive := CObj [("_tag", VStr "B")]]>
  (<[5%positive := CArr [VStr "a"]]>
  (<[6%positive := CObj [("a", one)]]>
  (<[7%positive := CObj [("a", VStr "y"); ("b", one)]]> ∅)))))).

Definition r1 : Val := VRef 1%positive.
Definition a2 : Val := VRef 2%positive.
Definition a5 : Val := VRef 5%positive.
Definition r6 : Val := VRef 6%positive.
Definition r7 : Val := VRef 7%positive.

Definition abc : list (Str * Decoder) :=
  [("a", string); ("b", string); ("c", string)].

(** [{ t: "A", inner: {} }] at 1, its inner record at 2. *)
Definition nested : Heap :=
  <[1%positive := CObj [("t", VStr "A"); ("inner", VRef 2%positive)]]>
  (<[2%positive := CObj []]> ∅).

(** [r => r.inner] *)
Definition inner (h : Heap) (r : Val) : Val :=
  match r with
  | VRef l =>
      match h !! l with
      | Some (CObj ps) => default VUndefined (obj_lookup "inner" ps)
      | _ => VUndefined
      end
  | _ => VUndefined
  end.

(** [Node = { value: number, next?: Node }], as an intersection of a
    [type] and a [partial] under [lazy]. *)
Definition node_body (d : Decoder) : Decoder :=
  intersection [type [("value", number)]; partial [("next", d)]].

Definition node : nat -> Decoder := Engine.self_referential node_body.

(** [{ value: 1, next: { value: 2, next: undefined } }] at 1. *)
Definition two_nodes : Heap :=
  <[1%positive := CObj [("value", one); ("next", VRef 2%positive)]]>
  (<[2%positive := CObj [("value", VNum (S754_finite false 1 1)); ("next", VUndefined)]]> ∅).

(** [{ value: 1, next: { value: "x" } }] at 1. *)
Definition bad_node : Heap :=
  <[1%positive := CObj [("value", one); ("next", VRef 2%positive)]]>
  (<[2%positive := CObj [("value", VStr "x")]]> ∅).

(** A decoder that accepts [undefined] only. *)
Definition undefined_ : Decoder :=
  fromRefinement (fun _ u => strict_equals u VUndefined) "undefined".

(** [{ a: { b: "x", c: 1 } }] at 1, its inner record at 2. *)
Definition deep : Heap :=
  <[1%positive := CObj [("a", VRef 2%positive)]]>
  (<[2%positive := CObj [("b", VStr "x"); ("c", one)]]> ∅).

End Examples.

(* ===================================================================== *)
(** * Schemas: the decoders built from the members of the instance *)
(* ===================================================================== *)

Module Schema.
Import JS E DE D Run.

(** The instance [decoder] interprets the operations of [Schemable] and
    [WithUnion]. A schema is an expression over those operations that
    take no function of the caller (all but [refinement] and [lazy]), as
    the expressions that the tests of [Expression] print. *)
#[local] Unset Elimination Schemes.
Inductive Schema :=
| SLiterals (as_ : list S.Literal)
| SLiteralsOr (as_ : list S.Literal) (s : Schema)
| SString
| SNumber
| SBoolean
| SInt
| SUnknownArray
| SUnknownRecord
| SType (fields : list (Str * Schema))
| SPartial (fields : list (Str * Schema))
| SRecord (s : Schema)
| SArray (s : Schema)
| STuple (ss : list Schema)
| SIntersection (ss : list Schema)
| SSum (tag : Str) (def : list (Str * Schema))
| SUnion (ss : list Schema).
#[local] Set Elimination Schemes.

(** Induction on a schema, with the property for every member. *)
Section SchemaInduction.
Variable P : Schema -> Prop.
Hypothesis HLiterals : forall as_, P (SLiterals as_).
Hypothesis HLiteralsOr : forall as_ s, P s -> P (SLiteralsOr as_ s).
Hypothesis HString : P SString.
Hypothesis HNumber : P SNumber.
Hypothesis HBoolean : P SBoolean.
Hypothesis HInt : P SInt.
Hypothesis HUnknownArray : P SUnknownArray.
Hypothesis HUnknownRecord : P SUnknownRecord.
Hypothesis HType : forall fields, Forall (fun ks => P ks.2) fields -> P (SType fields).
Hypothesis HPartial : forall fields, Forall (fun ks => P ks.2) fields -> P (SPartial fields).
Hypothesis HRecord : forall s, P s -> P (SRecord s).
Hypothesis HArray : forall s, P s -> P (SArray s).
Hypothesis HTuple : forall ss, Forall P ss -> P (STuple ss).
Hypothesis HIntersection : forall ss, Forall P ss -> P (SIntersection ss).
Hypothesis HSum : forall tag def, Forall (fun ks => P ks.2) def -> P (SSum tag def).
Hypothesis HUnion : forall ss, Forall P ss -> P (SUnion ss).


End SchemaInduction.

Section Interpretation.

Variable showLiteral : S.Literal -> Str.

(** The decoder of a schema: every operation replaced by the member of
    the instance [decoder] of that name. *)
Fixpoint decoder (s : Schema) : Decoder :=
  match s with
  | SLiterals as_ => literals showLiteral as_
  | SLiteralsOr as_ s' => literalsOr showLiteral as_ (decoder s')
  | SString => string
  | SNumber => number
  | SBoolean => boolean
  | SInt => Int
  | SUnknownArray => UnknownArray
  | SUnknownRecord => UnknownRecord
  | SType fields => type (List.map (fun ks => (ks.1, decoder ks.2)) fields)
  | SPartial fields => partial (List.map (fun ks => (ks.1, decoder ks.2)) fields)
  | SRecord s' => record (decoder s')
  | SArray s' => array (decoder s')
  | STuple ss => tuple (List.map decoder ss)
  | SIntersection ss => intersection (List.map decoder ss)
  | SSum tag def => sum tag (List.map (fun ks => (ks.1, decoder ks.2)) def)
  | SUnion ss => union (List.map decoder ss)
  end.

End Interpretation.

(** [u[k]] in the store [h]: the property, or [undefined]. *)
Definition read (h : Heap) (u : Val) (k : Str) : Val :=
  default VUndefined (obj_lookup k (props_of h u)).

(** A test of each position [i], [i+1], .. against the schema of the
    position, and the test of the schema declared for the key [v]. *)
Definition positions (test : Schema -> nat -> bool) : nat -> list Schema -> bool :=
  fix go (i : nat) (l : list Schema) : bool :=
    match l with
    | [] => true
    | s :: l' => test s i && go (Datatypes.S i) l'
    end.

Definition member_for (v : Str) (test : Schema -> bool) : list (Str * Schema) -> bool :=
  fix go (l : list (Str * Schema)) : bool :=
    match l with
    | [] => false
    | (k, s) :: l' => if String.eqb v k then test s else go l'
    end.

(** The values that a schema describes, by structure. A [type] has, under
    every declared key, a value of the schema of the key (a missing key
    reads as [undefined]); a [partial] has [undefined] or such a value; a
    [record] has values of the schema under all its keys and an [array] at
    all its indices; a [tuple] has a value of the schema of each position
    at that position (a missing element reads as [undefined], and further
    elements are not looked at); an [intersection] is a value of every
    member and a [union] of some member; a [sum] is a record whose tag is a
    declared key and that is a value of the schema of that key. *)
Fixpoint accepts (h : Heap) (s : Schema) (u : Val) : bool :=
  match s with
  | SLiterals as_ => G.literals_is as_ h u
  | SLiteralsOr as_ s' => G.literals_is as_ h u || accepts h s' u
  | SString => G.string_is h u
  | SNumber => G.number_is h u
  | SBoolean => G.boolean_is h u
  | SInt => G.number_is h u && Number_isInteger u
  | SUnknownArray => is_array h u
  | SUnknownRecord => is_plain_object h u
  | SType fields =>
      is_plain_object h u
      && forallb (fun ks => accepts h ks.2 (read h u ks.1)) fields
  | SPartial fields =>
      is_plain_object h u
      && forallb (fun ks => negb (not_undefined (read h u ks.1))
                            || accepts h ks.2 (read h u ks.1)) fields
  | SRecord s' =>
      is_plain_object h u
      && forallb (fun k => accepts h s' (read h u k)) (props_of h u).*1
  | SArray s' =>
      is_array h u && forallb (accepts h s') (elems_of h u)
  | STuple ss =>
      is_array h u
      && positions (fun s' i => accepts h s' (read_at (elems_of h u) i)) 0 ss
  | SIntersection ss => forallb (fun s' => accepts h s' u) ss
  | SSum tag def =>
      is_plain_object h u
      && match read h u tag with
         | VStr v => member_for v (fun s' => accepts h s' u) def
         | _ => false
         end
  | SUnion ss => existsb (fun s' => accepts h s' u) ss
  end.










End Schema.


(* ===================================================================== *)
(** * Properties *)
(* ===================================================================== *)

Section Monad.
Import JS.
Local Open Scope js_scope.

Lemma bind_normal {A B} (m : M A) (k : A -> M B) h a h1 :
  m h = Normal a h1 -> (let* x := m in k x) h = k a h1.
Proof. intros H. unfold bind. now rewrite H. Qed.

Lemma bind_throw {A B} (m : M A) (k : A -> M B) h x :
  m h = Throw x -> (let* x := m in k x) h = Throw x.
Proof. intros H. unfold bind. now rewrite H. Qed.

Lemma bind_ret {A B} (a : A) (k : A -> M B) h :
  (let* x := ret a in k x) h = k a h.
Proof. reflexivity. Qed.

Lemma bind_assoc {A B C} (m : M A) (f : A -> M B) (g : B -> M C) h :
  (let* y := (let* x := m in f x) in g y) h
  = (let* x := m in let* y := f x in g y) h.
Proof. unfold bind. now destruct (m h). Qed.

Lemma bind_inv {A B} (m : M A) (k : A -> M B) h b h2 :
  (let* x := m in k x) h = Normal b h2 ->
  exists a h1, m h = Normal a h1 /\ k a h1 = Normal b h2.
Proof.
  unfold bind. destruct (m h) as [a h1|x] eqn:Hm; [|discriminate].
  intros Hk. now exists a, h1.
Qed.

End Monad.

(** ** Refinement *)

Section Refinement.
Import JS E DE D.

(** C5. [refinement] hands a failure of the base decoder on unchanged; on
    a success [b] of the base decoder it fails with [Leaf label b] when
    the predicate rejects [b] and succeeds with [b] otherwise. [Int], on a
    number that is not an integer, fails with [Leaf "Int"] of that number. *)
Theorem refinement_spec (base : Decoder) (predicate : G.Refinement) (label : Str)
  (u : Val) (h : Heap) :
  (forall e h1, base u h = Normal (Left e) h1 ->
     refinement base predicate label u h = Normal (Left e) h1)
  /\ (forall b h1, base u h = Normal (Right b) h1 -> predicate h1 b = false ->
        refinement base predicate label u h = Normal (Left (Leaf label b)) h1)
  /\ (forall b h1, base u h = Normal (Right b) h1 -> predicate h1 b = true ->
        refinement base predicate label u h = Normal (Right b) h1)
  /\ (forall n, Number_isInteger (VNum n) = false ->
        Int (VNum n) h = Normal (Left (Leaf "Int" (VNum n))) h).
Proof.
  repeat split.
  - intros e h1 Hb. unfold refinement. now rewrite (bind_normal _ _ _ _ _ Hb).
  - intros b h1 Hb Hp. unfold refinement. rewrite (bind_normal _ _ _ _ _ Hb).
    unfold reads, fromPredicate. now rewrite Hp.
  - intros b h1 Hb Hp. unfold refinement. rewrite (bind_normal _ _ _ _ _ Hb).
    unfold reads, fromPredicate. now rewrite Hp.
  - intros n Hn. unfold Int, refinement, number, fromRefinement, bind, reads, fromPredicate.
    cbn [G.number_is]. now rewrite Hn.
Qed.

End Refinement.

(** The witness of [refinement_spec]: [Int] on a string, on 1.5 and on 2. *)
Lemma refinement_spec_witness :
  D.Int (JS.VStr "a") ∅ = JS.Normal (E.Left (DE.Leaf "number" (JS.VStr "a"))) ∅
  /\ D.Int (JS.VNum (S754_finite false 3 (-1))) ∅
     = JS.Normal (E.Left (DE.Leaf "Int" (JS.VNum (S754_finite false 3 (-1))))) ∅
  /\ D.Int (JS.VNum (S754_finite false 1 1)) ∅
     = JS.Normal (E.Right (JS.VNum (S754_finite false 1 1))) ∅.
Proof.
  split; [|split].
  - apply (refinement_spec D.number (fun _ n => JS.Number_isInteger n) "Int"
             (JS.VStr "a") ∅). reflexivity.
  - apply (refinement_spec D.number (fun _ n => JS.Number_isInteger n) "Int"
             (JS.VNum (S754_finite false 3 (-1))) ∅); reflexivity.
  - apply (refinement_spec D.number (fun _ n => JS.Number_isInteger n) "Int"
             (JS.VNum (S754_finite false 1 1)) ∅); reflexivity.
Defined.

(** ** Union *)

Section Union.
Import JS E DE D Run.
Local Open Scope js_scope.

Lemma run_same_app ds1 ds2 u h out1 h1 :
  run_same ds1 u h = Normal out1 h1 ->
  run_same (ds1 ++ ds2) u h =
    (let* out2 := run_same ds2 u in ret (out1 ++ out2)%list) h1.
Proof.
  revert h out1. induction ds1 as [|d ds1 IH]; intros h out1 H; simpl in *.
  - injection H as <- <-. unfold bind, ret. now destruct (run_same ds2 u h).
  - apply bind_inv in H as (e & h2 & Hd & H).
    apply bind_inv in H as (out & h3 & Hr & H). injection H as <- <-.
    rewrite (bind_normal _ _ _ _ _ Hd). unfold bind at 1.
    rewrite (IH _ _ Hr). unfold bind, ret. now destruct (run_same ds2 u h3).
Qed.

Lemma union_loop_failures ds rest u es0 es h h1 :
  run_same ds u h = Normal (Left <$> es) h1 ->
  union_loop u (ds ++ rest) es0 h = union_loop u rest (es0 ++ es) h1.
Proof.
  revert h es0 es. induction ds as [|d ds IH]; intros h es0 es H; simpl in *.
  - injection H as Hes <-. destruct es; [|discriminate]. now rewrite app_nil_r.
  - apply bind_inv in H as (e & h2 & Hd & H).
    apply bind_inv in H as (out & h3 & Hr & H). injection H as Hes <-.
    destruct es as [|err es]; [discriminate|]. simpl in Hes.
    injection Hes as -> ->.
    rewrite (bind_normal _ _ _ _ _ Hd). rewrite (IH _ _ _ Hr).
    now rewrite <- app_assoc.
Qed.

Lemma union_cons d rest u h :
  union (d :: rest) u h = union_loop u (d :: rest) [] h.
Proof. reflexivity. Qed.

Lemma union_first_success ds1 d ds2 u es a h h1 h2 :
  run_same ds1 u h = Normal (Left <$> es) h1 ->
  d u h1 = Normal (Right a) h2 ->
  union (ds1 ++ d :: ds2) u h = Normal (Right a) h2.
Proof.
  intros Hfail Hd.
  assert (Hu : union (ds1 ++ d :: ds2) u h = union_loop u (ds1 ++ d :: ds2) [] h)
    by (destruct ds1; reflexivity).
  rewrite Hu, (union_loop_failures _ _ _ _ _ _ _ Hfail). simpl.
  now rewrite (bind_normal _ _ _ _ _ Hd).
Qed.

Lemma union_all_fail ds u es h h1 :
  ds <> [] ->
  run_same ds u h = Normal (Left <$> es) h1 ->
  union ds u h = Normal (Left (Or "union" u es)) h1.
Proof.
  intros Hne Hfail.
  assert (Hu : union ds u h = union_loop u (ds ++ []) [] h)
    by (destruct ds; [congruence | now rewrite app_nil_r]).
  now rewrite Hu, (union_loop_failures _ _ _ _ _ _ _ Hfail).
Qed.

(** C2. [union] returns the first success: when the members before [d]
    fail and [d] succeeds, the result and the store are those of [d],
    whatever the members after [d] are. When every member fails the
    result is [Or "union" u] of their errors in order. With no member it
    fails with [Leaf "never" u]. *)
Theorem union_spec (u : Val) (h : Heap) :
  (forall ds1 d ds2 es a h1 h2,
      run_same ds1 u h = Normal (Left <$> es) h1 ->
      d u h1 = Normal (Right a) h2 ->
      union (ds1 ++ d :: ds2) u h = Normal (Right a) h2)
  /\ (forall ds es h1,
        ds <> [] ->
        run_same ds u h = Normal (Left <$> es) h1 ->
        union ds u h = Normal (Left (Or "union" u es)) h1)
  /\ union [] u h = Normal (Left (Leaf "never" u)) h.
Proof.
  split; [|split].
  - intros. eapply union_first_success; eauto.
  - intros. now apply union_all_fail.
  - reflexivity.
Qed.

End Union.

(** The witness of [union_spec]: [boolean] fails on a string and [string]
    succeeds, and the third member, which would throw, is not reached;
    [boolean] and [number] both fail on a string. *)
Lemma union_spec_witness :
  D.union [D.boolean; D.string; (fun _ => JS.throw JS.Unsupported)] (JS.VStr "a") ∅
  = JS.Normal (E.Right (JS.VStr "a")) ∅
  /\ D.union [D.boolean; D.number] (JS.VStr "a") ∅
     = JS.Normal (E.Left (DE.Or "union" (JS.VStr "a")
                            [DE.Leaf "boolean" (JS.VStr "a");
                             DE.Leaf "number" (JS.VStr "a")])) ∅.
Proof.
  split.
  - apply (proj1 (union_spec (JS.VStr "a") ∅) [D.boolean] D.string
             [fun _ => JS.throw JS.Unsupported]
             [DE.Leaf "boolean" (JS.VStr "a")] (JS.VStr "a") ∅ ∅); reflexivity.
  - apply (proj1 (proj2 (union_spec (JS.VStr "a") ∅)) [D.boolean; D.number]
             [DE.Leaf "boolean" (JS.VStr "a"); DE.Leaf "number" (JS.VStr "a")] ∅);
      [discriminate | reflexivity].
Defined.

(** ** Alternatives *)

Section Alternatives.
Import JS E DE D Run.
Local Open Scope js_scope.




End Alternatives.



(** ** Exhaustive decoding of the members *)

Section Exhaustive.
Import JS E DE D Run.
Local Open Scope js_scope.
Local Open Scope list_scope.

Lemma keyed_lefts_length {K} (out : list (K * Result)) :
  length (keyed_lefts out) = length (failed out).
Proof.
  induction out as [|[k [e|v]] out IH]; simpl; auto.
Qed.

Lemma keyed_lefts_keys {K} (out : list (K * Result)) :
  (keyed_lefts out).*1 = (failed out).*1.
Proof.
  induction out as [|[k [e|v]] out IH]; simpl; auto. f_equal. exact IH.
Qed.

Lemma keyed_lefts_In {K} (out : list (K * Result)) k e :
  In (k, e) (keyed_lefts out) <-> In (k, Left e) out.
Proof.
  induction out as [|[k' [e'|v]] out IH]; simpl; [tauto| |].
  - rewrite IH. split; (intros [H|H]; [inversion H; subst; now left | now right]).
  - rewrite IH. split; [now right | intros [H|H]; [discriminate | exact H]].
Qed.

Lemma collect_nonempty {K} (wrap : list (K * DecodeError) -> DecodeError) a
  (out : list (K * Result)) :
  (if isNonEmpty (keyed_lefts out) then Left (wrap (keyed_lefts out)) else Right (VRef a))
  = collect wrap a out.
Proof. unfold collect. now destruct (keyed_lefts out). Qed.

Lemma collect_no_failure {K} (wrap : list (K * DecodeError) -> DecodeError) a
  (out : list (K * Result)) :
  failed out = [] -> collect wrap a out = Right (VRef a).
Proof.
  intros Hnone. unfold collect. destruct (keyed_lefts out) eqn:Hk; [reflexivity|].
  apply (f_equal (@length _)) in Hk. rewrite keyed_lefts_length, Hnone in Hk.
  discriminate.
Qed.

Lemma collect_failed {K} (wrap : list (K * DecodeError) -> DecodeError) a
  (out : list (K * Result)) :
  failed out <> [] -> collect wrap a out = Left (wrap (keyed_lefts out)).
Proof.
  intros Hne. unfold collect.
  destruct (keyed_lefts out) eqn:Hk; [|reflexivity].
  apply (f_equal (@length _)) in Hk. rewrite keyed_lefts_length in Hk.
  destruct (failed out); [congruence | discriminate].
Qed.

(** Every member is decoded: the results list all the keys. *)
Lemma run_members_keys {K} (fetch : K -> M Val) store members h out h1 :
  run_members (fun _ => true) fetch store members h = Normal out h1 ->
  out.*1 = members.*1.
Proof.
  revert h out. induction members as [|[k d] ms IH]; intros h out H; simpl in H.
  - now injection H as <- <-.
  - apply bind_inv in H as (x & h2 & _ & H).
    apply bind_inv in H as (e & h3 & _ & H).
    apply bind_inv in H as (? & h4 & _ & H).
    apply bind_inv in H as (out' & h5 & Hr & H).
    injection H as <- <-. simpl. f_equal. eauto.
Qed.

Lemma run_members_sublist {K} wanted (fetch : K -> M Val) store members h out h1 :
  run_members wanted fetch store members h = Normal out h1 ->
  sublist out.*1 members.*1.
Proof.
  revert h out. induction members as [|[k d] ms IH]; intros h out H; simpl in H.
  - injection H as <- <-. constructor.
  - apply bind_inv in H as (x & h2 & _ & H). destruct (wanted x).
    + apply bind_inv in H as (e & h3 & _ & H).
      apply bind_inv in H as (? & h4 & _ & H).
      apply bind_inv in H as (out' & h5 & Hr & H).
      injection H as <- <-. simpl. constructor. eauto.
    + simpl. constructor. eauto.
Qed.

Lemma type_loop_run r a ds es0 h :
  type_loop r a ds es0 h =
  (let* out := run_members (fun _ => true) (get_prop r) (set_prop a) ds in
   ret (es0 ++ keyed_lefts out)) h.
Proof.
  revert es0 h. induction ds as [|[k d] ds IH]; intros es0 h; simpl.
  - unfold bind, ret. now rewrite app_nil_r.
  - unfold bind, ret.
    destruct (get_prop r k h) as [rk h1|x]; [|reflexivity].
    destruct (d rk h1) as [[err|v] h2|x]; [| |reflexivity].
    + rewrite IH. unfold bind, ret.
      destruct (run_members _ _ _ ds h2); [|reflexivity].
      simpl. now rewrite <- app_assoc.
    + destruct (set_prop a k v h2) as [[] h3|x]; [|reflexivity].
      rewrite IH. unfold bind, ret.
      now destruct (run_members _ _ _ ds h3).
Qed.

Lemma get_prop_pure r k h x h1 : get_prop r k h = Normal x h1 -> h1 = h.
Proof.
  unfold get_prop. destruct r; try discriminate.
  destruct (h !! l) as [[ps|es]|]; try discriminate. now intros [= _ <-].
Qed.

Lemma partial_loop_run r a ds es0 h :
  partial_loop r a ds es0 h =
  (let* out := run_members not_undefined (get_prop r) (set_prop a) ds in
   ret (es0 ++ keyed_lefts out)) h.
Proof.
  revert es0 h. induction ds as [|[k d] ds IH]; intros es0 h; simpl.
  - unfold bind, ret. now rewrite app_nil_r.
  - unfold bind, ret.
    destruct (get_prop r k h) as [rk h1|x] eqn:Hg; [|reflexivity].
    apply get_prop_pure in Hg as Hh. subst h1.
    unfold not_undefined at 1.
    destruct (negb (strict_equals rk VUndefined)); [|now rewrite IH].
    rewrite Hg.
    destruct (d rk h) as [[err|v] h2|x]; [| |reflexivity].
    + rewrite IH. unfold bind, ret.
      destruct (run_members _ _ _ ds h2); [|reflexivity].
      simpl. now rewrite <- app_assoc.
    + destruct (set_prop a k v h2) as [[] h3|x]; [|reflexivity].
      rewrite IH. unfold bind, ret.
      now destruct (run_members _ _ _ ds h3).
Qed.

Lemma record_loop_run decoder r a keys es0 h :
  record_loop decoder r a keys es0 h =
  (let* out := run_members (fun _ => true) (get_prop r) (set_prop a)
                 (List.map (fun k => (k, decoder)) keys) in
   ret (es0 ++ keyed_lefts out)) h.
Proof.
  revert es0 h. induction keys as [|k keys IH]; intros es0 h; simpl.
  - unfold bind, ret. now rewrite app_nil_r.
  - unfold bind, ret.
    destruct (get_prop r k h) as [rk h1|x]; [|reflexivity].
    destruct (decoder rk h1) as [[err|v] h2|x]; [| |reflexivity].
    + rewrite IH. unfold bind, ret.
      destruct (run_members _ _ _ _ h2); [|reflexivity].
      simpl. now rewrite <- app_assoc.
    + destruct (set_prop a k v h2) as [[] h3|x]; [|reflexivity].
      rewrite IH. unfold bind, ret.
      now destruct (run_members _ _ _ _ h3).
Qed.

Lemma array_loop_run decoder us a indices es0 h :
  array_loop decoder us a indices es0 h =
  (let* out := run_members (fun _ => true) (get_index us) (set_index a)
                 (List.map (fun i => (i, decoder)) indices) in
   ret (es0 ++ keyed_lefts out)) h.
Proof.
  revert es0 h. induction indices as [|i indices IH]; intros es0 h; simpl.
  - unfold bind, ret. now rewrite app_nil_r.
  - unfold bind, ret.
    destruct (get_index us i h) as [ui h1|x]; [|reflexivity].
    destruct (decoder ui h1) as [[err|v] h2|x]; [| |reflexivity].
    + rewrite IH. unfold bind, ret.
      destruct (run_members _ _ _ _ h2); [|reflexivity].
      simpl. now rewrite <- app_assoc.
    + destruct (set_index a i v h2) as [[] h3|x]; [|reflexivity].
      rewrite IH. unfold bind, ret.
      now destruct (run_members _ _ _ _ h3).
Qed.

Lemma tuple_loop_run us a i ds es0 h :
  tuple_loop us a i ds es0 h =
  (let* out := run_members (fun _ => true) (get_index us) (set_index a)
                 (by_index i ds) in
   ret (es0 ++ keyed_lefts out)) h.
Proof.
  revert i es0 h. induction ds as [|d ds IH]; intros i es0 h; simpl.
  - unfold bind, ret. now rewrite app_nil_r.
  - unfold bind, ret.
    destruct (get_index us i h) as [ui h1|x]; [|reflexivity].
    destruct (d ui h1) as [[err|v] h2|x]; [| |reflexivity].
    + rewrite IH. unfold bind, ret. fold (by_index (Datatypes.S i) ds).
      destruct (run_members _ _ _ _ h2); [|reflexivity].
      simpl. now rewrite <- app_assoc.
    + destruct (set_index a i v h2) as [[] h3|x]; [|reflexivity].
      rewrite IH. unfold bind, ret. fold (by_index (Datatypes.S i) ds).
      now destruct (run_members _ _ _ _ h3).
Qed.

(** Each structural decoder, on an input that passes its first test, is
    its reference run followed by [collect]. *)
Lemma type_as_run ds u h :
  G.UnknownRecord_is h u = true ->
  type ds u h =
  (let* p := type_run ds u in ret (collect (Labeled "type" u) p.1 p.2)) h.
Proof.
  intros Hu. unfold type, type_run, UnknownRecord, fromRefinement.
  unfold bind at 1. unfold reads, fromPredicate. rewrite Hu.
  unfold bind, ret. destruct (alloc (CObj []) h) as [a h1|x]; [|reflexivity].
  rewrite type_loop_run. unfold bind, ret.
  destruct (run_members _ _ _ ds h1) as [out h2|x]; [|reflexivity].
  simpl. now rewrite collect_nonempty.
Qed.

Lemma partial_as_run ds u h :
  G.UnknownRecord_is h u = true ->
  partial ds u h =
  (let* p := partial_run ds u in ret (collect (Labeled "partial" u) p.1 p.2)) h.
Proof.
  intros Hu. unfold partial, partial_run, UnknownRecord, fromRefinement.
  unfold bind at 1. unfold reads, fromPredicate. rewrite Hu.
  unfold bind, ret. destruct (alloc (CObj []) h) as [a h1|x]; [|reflexivity].
  rewrite partial_loop_run. unfold bind, ret.
  destruct (run_members _ _ _ ds h1) as [out h2|x]; [|reflexivity].
  simpl. now rewrite collect_nonempty.
Qed.

Lemma record_as_run d u h :
  G.UnknownRecord_is h u = true ->
  record d u h =
  (let* p := record_run d u in ret (collect (Labeled "record" u) p.1 p.2)) h.
Proof.
  intros Hu. unfold record, record_run, UnknownRecord, fromRefinement.
  unfold bind at 1. unfold reads, fromPredicate. rewrite Hu.
  unfold bind, ret. destruct (alloc (CObj []) h) as [a h1|x]; [|reflexivity].
  destruct (own_keys u h1) as [keys h2|x]; [|reflexivity].
  rewrite record_loop_run. unfold bind, ret.
  destruct (run_members _ _ _ _ h2) as [out h3|x]; [|reflexivity].
  simpl. now rewrite collect_nonempty.
Qed.

Lemma array_as_run d u h :
  G.UnknownArray_is h u = true ->
  array d u h =
  (let* p := array_run d u in ret (collect (Indexed "array" u) p.1 p.2)) h.
Proof.
  intros Hu. unfold array, array_run, UnknownArray, fromRefinement.
  unfold bind at 1. unfold reads, fromPredicate. rewrite Hu.
  unfold bind, ret. destruct (array_length u h) as [len h1|x]; [|reflexivity].
  destruct (alloc _ h1) as [a h2|x]; [|reflexivity].
  rewrite array_loop_run. unfold bind, ret.
  destruct (run_members _ _ _ _ h2) as [out h3|x]; [|reflexivity].
  simpl. now rewrite collect_nonempty.
Qed.

Lemma tuple_as_run ds u h :
  G.UnknownArray_is h u = true ->
  tuple ds u h =
  (let* p := tuple_run ds u in ret (collect (Indexed "tuple" u) p.1 p.2)) h.
Proof.
  intros Hu. unfold tuple, tuple_run, UnknownArray, fromRefinement.
  unfold bind at 1. unfold reads, fromPredicate. rewrite Hu.
  unfold bind, ret. destruct (alloc _ h) as [a h1|x]; [|reflexivity].
  rewrite tuple_loop_run. unfold bind, ret.
  destruct (run_members _ _ _ _ h1) as [out h2|x]; [|reflexivity].
  simpl. now rewrite collect_nonempty.
Qed.

Lemma collect_reports_all {K} (wrap : list (K * DecodeError) -> DecodeError) a
  (out : list (K * Result)) h1 :
  reports_all wrap out (Normal (collect wrap a out) h1) h1.
Proof.
  intros Hne. exists (keyed_lefts out). split; [|split; [|split]].
  - now rewrite collect_failed.
  - apply keyed_lefts_length.
  - apply keyed_lefts_keys.
  - intros k e. apply keyed_lefts_In.
Qed.

Lemma alloc_inv c h l h1 :
  alloc c h = Normal l h1 -> h !! l = None /\ h1 = <[l := c]> h.
Proof.
  unfold alloc. intros [= <- <-]. split; [|reflexivity].
  apply not_elem_of_dom, is_fresh.
Qed.

Lemma alloc_lookup c h l h1 l' c' :
  alloc c h = Normal l h1 -> h !! l' = Some c' -> h1 !! l' = Some c'.
Proof.
  intros (Hl & ->)%alloc_inv Hl'.
  rewrite lookup_insert_ne; [exact Hl' | congruence].
Qed.

Lemma keys_with_decoder {K} (d : Decoder) (ks : list K) :
  (List.map (fun k => (k, d)) ks).*1 = ks.
Proof. induction ks as [|k ks IH]; simpl; [easy|]. f_equal. exact IH. Qed.

(** C1. On an input that passes the first test of the decoder, [type],
    [record], [array] and [tuple] decode every member, and [partial] every
    member it does not skip, whatever the earlier members returned; when
    [k > 0] of them fail, the result is one [Labeled] or [Indexed] failure
    with exactly [k] children, one per failed member, each under the key
    or index of that member. *)
Theorem exhaustive_failures (u : Val) (h : Heap) :
  (forall ds a out h1,
      G.UnknownRecord_is h u = true ->
      type_run ds u h = Normal (a, out) h1 ->
      out.*1 = ds.*1
      /\ reports_all (Labeled "type" u) out (type ds u h) h1)
  /\ (forall ds a out h1,
        G.UnknownRecord_is h u = true ->
        partial_run ds u h = Normal (a, out) h1 ->
        sublist out.*1 ds.*1
        /\ reports_all (Labeled "partial" u) out (partial ds u h) h1)
  /\ (forall d a out h1,
        G.UnknownRecord_is h u = true ->
        record_run d u h = Normal (a, out) h1 ->
        out.*1 = (props_of h u).*1
        /\ reports_all (Labeled "record" u) out (record d u h) h1)
  /\ (forall d a out h1,
        G.UnknownArray_is h u = true ->
        array_run d u h = Normal (a, out) h1 ->
        out.*1 = seq 0 (length (elems_of h u))
        /\ reports_all (Indexed "array" u) out (array d u h) h1)
  /\ (forall ds a out h1,
        G.UnknownArray_is h u = true ->
        tuple_run ds u h = Normal (a, out) h1 ->
        out.*1 = seq 0 (length ds)
        /\ reports_all (Indexed "tuple" u) out (tuple ds u h) h1).
Proof.
  repeat apply conj.
  - intros ds a out h1 Hu Hrun. rewrite (type_as_run _ _ _ Hu).
    rewrite (bind_normal _ _ _ _ _ Hrun). split; [|apply collect_reports_all].
    unfold type_run in Hrun.
    apply bind_inv in Hrun as (a' & h2 & _ & Hrun).
    apply bind_inv in Hrun as (out' & h3 & Hrun & [= <- <- <-]).
    eapply run_members_keys; eauto.
  - intros ds a out h1 Hu Hrun. rewrite (partial_as_run _ _ _ Hu).
    rewrite (bind_normal _ _ _ _ _ Hrun). split; [|apply collect_reports_all].
    unfold partial_run in Hrun.
    apply bind_inv in Hrun as (a' & h2 & _ & Hrun).
    apply bind_inv in Hrun as (out' & h3 & Hrun & [= <- <- <-]).
    eapply run_members_sublist; eauto.
  - intros d a out h1 Hu Hrun. rewrite (record_as_run _ _ _ Hu).
    rewrite (bind_normal _ _ _ _ _ Hrun). split; [|apply collect_reports_all].
    unfold record_run in Hrun.
    apply bind_inv in Hrun as (a' & h2 & Ha & Hrun).
    apply bind_inv in Hrun as (keys & h3 & Hk & Hrun).
    apply bind_inv in Hrun as (out' & h4 & Hrun & [= <- <- <-]).
    apply run_members_keys in Hrun. rewrite Hrun.
    unfold G.UnknownRecord_is, is_plain_object in Hu. unfold own_keys in Hk.
    destruct u as [| | | | |l]; try discriminate.
    destruct (h !! l) as [[ps|es]|] eqn:Hl; try discriminate.
    rewrite (alloc_lookup _ _ _ _ _ _ Ha Hl) in Hk. injection Hk as <- <-.
    simpl. rewrite Hl. apply keys_with_decoder.
  - intros d a out h1 Hu Hrun. rewrite (array_as_run _ _ _ Hu).
    rewrite (bind_normal _ _ _ _ _ Hrun). split; [|apply collect_reports_all].
    unfold array_run in Hrun.
    apply bind_inv in Hrun as (len & h2 & Hlen & Hrun).
    apply bind_inv in Hrun as (a' & h3 & Ha & Hrun).
    apply bind_inv in Hrun as (out' & h4 & Hrun & [= <- <- <-]).
    apply run_members_keys in Hrun. rewrite Hrun.
    unfold G.UnknownArray_is, is_array in Hu. unfold array_length in Hlen.
    destruct u as [| | | | |l]; try discriminate.
    destruct (h !! l) as [[ps|es]|] eqn:Hl; try discriminate.
    injection Hlen as <- <-. simpl. rewrite Hl. apply keys_with_decoder.
  - intros ds a out h1 Hu Hrun. rewrite (tuple_as_run _ _ _ Hu).
    rewrite (bind_normal _ _ _ _ _ Hrun). split; [|apply collect_reports_all].
    unfold tuple_run in Hrun.
    apply bind_inv in Hrun as (a' & h2 & Ha & Hrun).
    apply bind_inv in Hrun as (out' & h3 & Hrun & [= <- <- <-]).
    apply run_members_keys in Hrun. rewrite Hrun.
    unfold by_index. apply fst_zip. now rewrite length_seq.
Qed.

End Exhaustive.

(** When no member fails the structural decoders succeed with the new
    object: a composite error is never built from an empty list. *)
Lemma structural_success (u : JS.Val) (h : JS.Heap) :
  (forall ds a out h1,
      G.UnknownRecord_is h u = true ->
      Run.type_run ds u h = JS.Normal (a, out) h1 -> Run.failed out = [] ->
      D.type ds u h = JS.Normal (E.Right (JS.VRef a)) h1)
  /\ (forall ds a out h1,
        G.UnknownRecord_is h u = true ->
        Run.partial_run ds u h = JS.Normal (a, out) h1 -> Run.failed out = [] ->
        D.partial ds u h = JS.Normal (E.Right (JS.VRef a)) h1)
  /\ (forall d a out h1,
        G.UnknownRecord_is h u = true ->
        Run.record_run d u h = JS.Normal (a, out) h1 -> Run.failed out = [] ->
        D.record d u h = JS.Normal (E.Right (JS.VRef a)) h1)
  /\ (forall d a out h1,
        G.UnknownArray_is h u = true ->
        Run.array_run d u h = JS.Normal (a, out) h1 -> Run.failed out = [] ->
        D.array d u h = JS.Normal (E.Right (JS.VRef a)) h1)
  /\ (forall ds a out h1,
        G.UnknownArray_is h u = true ->
        Run.tuple_run ds u h = JS.Normal (a, out) h1 -> Run.failed out = [] ->
        D.tuple ds u h = JS.Normal (E.Right (JS.VRef a)) h1).
Proof.
  repeat apply conj; intros ? a out h1 Hu Hrun Hnone.
  - rewrite (type_as_run _ _ _ Hu), (bind_normal _ _ _ _ _ Hrun).
    unfold JS.ret. simpl. now rewrite collect_no_failure.
  - rewrite (partial_as_run _ _ _ Hu), (bind_normal _ _ _ _ _ Hrun).
    unfold JS.ret. simpl. now rewrite collect_no_failure.
  - rewrite (record_as_run _ _ _ Hu), (bind_normal _ _ _ _ _ Hrun).
    unfold JS.ret. simpl. now rewrite collect_no_failure.
  - rewrite (array_as_run _ _ _ Hu), (bind_normal _ _ _ _ _ Hrun).
    unfold JS.ret. simpl. now rewrite collect_no_failure.
  - rewrite (tuple_as_run _ _ _ Hu), (bind_normal _ _ _ _ _ Hrun).
    unfold JS.ret. simpl. now rewrite collect_no_failure.
Qed.

(** The witness of [exhaustive_failures]: three members of which the first
    and the last fail, for each of the five decoders. *)
Lemma exhaustive_failures_witness :
  (exists es h1,
      D.type Examples.abc Examples.r1 Examples.store
      = JS.Normal (E.Left (DE.Labeled "type" Examples.r1 es)) h1
      /\ es.*1 = ["a"; "c"])
  /\ (exists es h1,
        D.partial (Examples.abc ++ [("d", D.string)])%list Examples.r1 Examples.store
        = JS.Normal (E.Left (DE.Labeled "partial" Examples.r1 es)) h1
        /\ es.*1 = ["a"; "c"])
  /\ (exists es h1,
        D.record D.string Examples.r1 Examples.store
        = JS.Normal (E.Left (DE.Labeled "record" Examples.r1 es)) h1
        /\ es.*1 = ["a"; "c"])
  /\ (exists es h1,
        D.array D.number Examples.a2 Examples.store
        = JS.Normal (E.Left (DE.Indexed "array" Examples.a2 es)) h1
        /\ es.*1 = [0; 2])
  /\ (exists es h1,
        D.tuple [D.number; D.number; D.number] Examples.a2 Examples.store
        = JS.Normal (E.Left (DE.Indexed "tuple" Examples.a2 es)) h1
        /\ es.*1 = [0; 2]).
Proof.
  pose proof (exhaustive_failures Examples.r1 Examples.store) as (Ht & Hp & Hr & _ & _).
  pose proof (exhaustive_failures Examples.a2 Examples.store) as (_ & _ & _ & Ha & Hu).
  repeat apply conj.
  - edestruct (Ht Examples.abc) as [_ Hrep]; [reflexivity | vm_compute; reflexivity |].
    destruct Hrep as (es & Hres & _ & Hkeys & _); [vm_compute; discriminate|].
    eexists es, _. split; [exact Hres | exact Hkeys].
  - edestruct (Hp (Examples.abc ++ [("d", D.string)])%list) as [_ Hrep];
      [reflexivity | vm_compute; reflexivity |].
    destruct Hrep as (es & Hres & _ & Hkeys & _); [vm_compute; discriminate|].
    eexists es, _. split; [exact Hres | exact Hkeys].
  - edestruct (Hr D.string) as [_ Hrep]; [reflexivity | vm_compute; reflexivity |].
    destruct Hrep as (es & Hres & _ & Hkeys & _); [vm_compute; discriminate|].
    eexists es, _. split; [exact Hres | exact Hkeys].
  - edestruct (Ha D.number) as [_ Hrep]; [reflexivity | vm_compute; reflexivity |].
    destruct Hrep as (es & Hres & _ & Hkeys & _); [vm_compute; discriminate|].
    eexists es, _. split; [exact Hres | exact Hkeys].
  - edestruct (Hu [D.number; D.number; D.number]) as [_ Hrep];
      [reflexivity | vm_compute; reflexivity |].
    destruct Hrep as (es & Hres & _ & Hkeys & _); [vm_compute; discriminate|].
    eexists es, _. split; [exact Hres | exact Hkeys].
Defined.

(** ** Tagged sums *)

Section Sum.
Import JS E DE D Run.
Local Open Scope js_scope.

Lemma obj_lookup_set k' k v ps :
  obj_lookup k' (obj_set k v ps) =
  if String.eqb k' k then Some v else obj_lookup k' ps.
Proof.
  induction ps as [|[k0 v0] ps IH]; simpl.
  - now destruct (String.eqb k' k).
  - destruct (String.eqb k k0) eqn:Hk; simpl.
    + apply String.eqb_eq in Hk as ->. now destruct (String.eqb k' k0).
    + rewrite IH. destruct (String.eqb k' k0) eqn:Hk0; [|reflexivity].
      apply String.eqb_eq in Hk0 as ->.
      rewrite String.eqb_sym in Hk. now rewrite Hk.
Qed.


(** [sum] on a record, by cases on the value of the tag. *)
Lemma sum_on_record tag def l ps h :
  def <> [] ->
  h !! l = Some (CObj ps) ->
  let u := VRef l in
  let v := default VUndefined (obj_lookup tag ps) in
  sum tag def u h =
  match v with
  | VStr s =>
      match def_lookup s def with
      | Some d =>
          (let* er := d u in
           match er with
           | Left _ => ret er
           | Right a => let* _ := set_prop a tag v in ret er
           end) h
      | None => Normal (Left (labeled "sum" u
          [(tag, leaf (join " | " (List.map JSON_stringify_string def.*1)) v)])) h
      end
  | _ => Normal (Left (labeled "sum" u
          [(tag, leaf (join " | " (List.map JSON_stringify_string def.*1)) v)])) h
  end.
Proof.
  intros Hdef Hl u v.
  unfold sum. destruct def as [|[k0 d0] def']; [congruence|].
  change (Nat.eqb (length ((k0, d0) :: def').*1) 0) with false. cbv iota.
  unfold UnknownRecord, fromRefinement.
  unfold bind at 1. unfold reads, fromPredicate, G.UnknownRecord_is, u.
  cbn [is_plain_object]. rewrite Hl.
  unfold bind at 1. unfold get_prop. rewrite Hl. fold v.
  destruct v as [| | | |s|]; try reflexivity.
  destruct (def_lookup s _); reflexivity.
Qed.


End Sum.



(** ** Intersection *)

Section Intersection.
Import JS E DE D Run.
Local Open Scope js_scope.
Local Open Scope list_scope.

Lemma intersection_loop_run ds u i as_ es h out h1 :
  run_same ds u h = Normal out h1 ->
  intersection_loop u i ds as_ es h = Normal (fill i out as_, es ++ lefts out) h1.
Proof.
  revert i as_ es h out. induction ds as [|d ds IH]; intros i as_ es h out H; simpl in *.
  - injection H as <- <-. simpl. now rewrite app_nil_r.
  - apply bind_inv in H as (e & h2 & Hd & H).
    apply bind_inv in H as (out' & h3 & Hr & [= <- <-]).
    rewrite (bind_normal _ _ _ _ _ Hd). destruct e as [err|v]; simpl.
    + rewrite (IH _ _ _ _ _ Hr). now rewrite <- app_assoc.
    + now rewrite (IH _ _ _ _ _ Hr).
Qed.

Lemma fill_dense vs as_ :
  fill (length as_) (Right <$> vs) as_ = as_ ++ (Some <$> vs).
Proof.
  revert as_. induction vs as [|v vs IH]; intros as_; simpl.
  - now rewrite app_nil_r.
  - assert (Hs : sparse_set (length as_) v as_ = as_ ++ [Some v]).
    { unfold sparse_set. destruct (decide (length as_ < length as_)); [lia|].
      now rewrite Nat.sub_diag. }
    rewrite Hs. replace (Datatypes.S (length as_)) with (length (as_ ++ [Some v]))
      by (rewrite length_app; simpl; lia).
    rewrite IH. now rewrite <- app_assoc.
Qed.

(** Every value stored in [as] is a success of a member. *)
Lemma fill_present i out as_ v :
  In (Some v) (fill i out as_) -> In (Some v) as_ \/ In (Right v) out.
Proof.
  revert i as_. induction out as [|[err|w] out IH]; intros i as_ Hin; simpl in *.
  - now left.
  - destruct (IH _ _ Hin); auto.
  - destruct (IH _ _ Hin) as [H|H]; [|auto].
    unfold sparse_set in H. destruct (decide (i < length as_)).
    + apply list_elem_of_In, list_elem_of_lookup in H as (j & Hj).
      destruct (decide (j = i)) as [->|Hne].
      * rewrite list_lookup_insert_eq in Hj by lia. injection Hj as ->. auto.
      * rewrite list_lookup_insert_ne in Hj by congruence.
        left. apply list_elem_of_In, list_elem_of_lookup. eauto.
    + rewrite !in_app_iff in H. destruct H as [H|[H|H]]; [auto| |].
      * apply list_elem_of_In, elem_of_replicate in H as [H _]. discriminate.
      * destruct H as [[= ->]|[]]. auto.
Qed.

(** *** [Object.assign] *)

Lemma assign_props_spec t tp ps h :
  h !! t = Some (CObj tp) ->
  assign_props (VRef t) ps h = Normal tt (<[t := CObj (assign tp ps)]> h).
Proof.
  revert tp h. induction ps as [|[k v] ps IH]; intros tp h Ht; simpl.
  - unfold ret. now rewrite insert_id.
  - unfold bind, set_prop. rewrite Ht.
    rewrite (IH (obj_set k v tp)) by apply lookup_insert_eq.
    now rewrite insert_insert_eq.
Qed.

Lemma records_cons h o as_ :
  records h (o :: as_) =
  match o with
  | Some v => props_of h v :: records h as_
  | None => records h as_
  end.
Proof. now destruct o. Qed.

Lemma records_insert t c as_ h :
  (forall v, In (Some v) as_ -> v <> VRef t) ->
  records (<[t := c]> h) as_ = records h as_.
Proof.
  induction as_ as [|o as_ IH]; intros Hsrc; [reflexivity|].
  rewrite !records_cons. rewrite IH by (intros v Hv; apply Hsrc; now right).
  destruct o as [w|]; [|reflexivity]. f_equal.
  specialize (Hsrc w (or_introl eq_refl)).
  unfold props_of. destruct w as [| | | | |lw]; try reflexivity.
  rewrite lookup_insert_ne by congruence. reflexivity.
Qed.

Lemma Object_assign_spec t tp as_ h :
  h !! t = Some (CObj tp) ->
  (forall v, In (Some v) as_ -> is_plain_object h v = true /\ v <> VRef t) ->
  Object_assign (VRef t) as_ h
  = Normal tt (<[t := CObj (fold_left assign (records h as_) tp)]> h).
Proof.
  revert tp h. induction as_ as [|o as_ IH]; intros tp h Ht Hsrc; simpl.
  - unfold ret. now rewrite insert_id.
  - destruct o as [v|]; simpl.
    + destruct (Hsrc v (or_introl eq_refl)) as [Hplain Hne].
      unfold is_plain_object in Hplain. destruct v as [| | | | |l]; try discriminate.
      destruct (h !! l) as [[ps|es]|] eqn:Hl; try discriminate.
      unfold bind at 1. unfold bind at 1. unfold reads. rewrite Hl.
      rewrite (assign_props_spec _ _ _ _ Ht).
      assert (Hlt : l <> t) by congruence.
      rewrite (IH (assign tp ps)).
      * rewrite insert_insert_eq. rewrite records_insert.
        -- unfold props_of. now rewrite Hl.
        -- intros w Hw. now apply Hsrc; right.
      * apply lookup_insert_eq.
      * intros w Hw. destruct (Hsrc w (or_intror Hw)) as [Hp Hwt]. split; [|exact Hwt].
        unfold is_plain_object in *. destruct w as [| | | | |lw]; try discriminate.
        rewrite lookup_insert_ne by congruence. exact Hp.
    + unfold bind at 1. unfold ret at 1.
      apply IH; [exact Ht|]. intros w Hw. apply Hsrc. now right.
Qed.

(** *** The merged record *)

Lemma obj_lookup_None k (r : list (Str * Val)) :
  ~ In k r.*1 -> obj_lookup k r = None.
Proof.
  induction r as [|[k0 v0] r IH]; simpl; [easy|]. intros Hn.
  destruct (String.eqb k k0) eqn:Hk.
  - apply String.eqb_eq in Hk as ->. exfalso. apply Hn. now left.
  - apply IH. intros H. apply Hn. now right.
Qed.

Lemma lookup_assign k tp r :
  NoDup r.*1 ->
  obj_lookup k (assign tp r) =
  match obj_lookup k r with Some v => Some v | None => obj_lookup k tp end.
Proof.
  unfold assign. revert tp. induction r as [|[k0 v0] r IH]; intros tp Hnd; simpl.
  - reflexivity.
  - apply NoDup_cons in Hnd as [Hk0 Hnd]. rewrite (IH _ Hnd). simpl.
    rewrite obj_lookup_set. destruct (String.eqb k k0) eqn:Hk.
    + apply String.eqb_eq in Hk as ->. rewrite obj_lookup_None; [reflexivity|].
      intros Hin. apply Hk0. now apply list_elem_of_In.
    + reflexivity.
Qed.

Lemma lookup_fold_assign k rs tp :
  Forall (fun r : list (Str * Val) => NoDup r.*1) rs ->
  obj_lookup k (fold_left assign rs tp) =
  match lookup_last k rs with Some v => Some v | None => obj_lookup k tp end.
Proof.
  revert tp. induction rs as [|r rs IH]; intros tp Hnd; simpl; [reflexivity|].
  apply Forall_cons in Hnd as [Hr Hnd]. rewrite (IH _ Hnd).
  destruct (lookup_last k rs); [reflexivity|]. now apply lookup_assign.
Qed.

Lemma some_not_plain_false h as_ :
  some_not_plain h as_ = false ->
  forall v, In (Some v) as_ -> is_plain_object h v = true.
Proof.
  unfold some_not_plain. intros Hex v Hin.
  destruct (is_plain_object h v) eqn:Hp; [reflexivity|].
  assert (Ht : existsb (fun o => match o with
                                 | Some a => negb (is_plain_object h a)
                                 | None => false
                                 end) as_ = true).
  { apply existsb_exists. exists (Some v). now rewrite Hp. }
  congruence.
Qed.

Lemma plain_allocated h v t :
  is_plain_object h v = true -> h !! t = None -> v <> VRef t.
Proof.
  unfold is_plain_object. intros Hp Ht ->. now rewrite Ht in Hp.
Qed.

(** [Object.assign({}, ...as)] when every stored value is a plain object. *)
Lemma merged_value h as_ :
  some_not_plain h as_ = false ->
  exists t, h !! t = None
            /\ (let* t := alloc (CObj []) in
                let* _ := Object_assign (VRef t) as_ in
                ret (VRef t)) h
               = Normal (VRef t) (<[t := CObj (merge (records h as_))]> h).
Proof.
  intros Hplain. pose proof (some_not_plain_false _ _ Hplain) as Hall.
  destruct (alloc (CObj []) h) as [t h1|x] eqn:Ha; [|discriminate].
  apply alloc_inv in Ha as Hinv. destruct Hinv as [Ht ->].
  exists t. split; [exact Ht|]. rewrite (bind_normal _ _ _ _ _ Ha).
  assert (Hne : forall v, In (Some v) as_ -> v <> VRef t)
    by (intros v Hv; eapply plain_allocated; eauto).
  rewrite (bind_normal _ _ _ tt
             (<[t := CObj (fold_left assign (records (<[t := CObj []]> h) as_) [])]>
                (<[t := CObj []]> h))).
  - unfold ret, merge. now rewrite insert_insert_eq, records_insert.
  - apply Object_assign_spec; [apply lookup_insert_eq|].
    intros v Hv. split; [|now apply Hne].
    specialize (Hall v Hv). unfold is_plain_object in *.
    destruct v as [| | | | |l]; try discriminate.
    rewrite lookup_insert_ne; [exact Hall|]. intros ->. now rewrite Ht in Hall.
Qed.

Lemma records_present h vs : records h (Some <$> vs) = props_of h <$> vs.
Proof.
  induction vs as [|v vs IH]; [reflexivity|].
  rewrite fmap_cons, records_cons, IH. reflexivity.
Qed.

Lemma some_not_plain_present h vs :
  some_not_plain h (Some <$> vs) = existsb (fun v => negb (is_plain_object h v)) vs.
Proof.
  unfold some_not_plain. induction vs as [|v vs IH]; [reflexivity|].
  simpl. now rewrite <- IH.
Qed.

Lemma intersection_nonempty ds u h out h1 :
  ds <> [] ->
  run_same ds u h = Normal out h1 ->
  intersection ds u h =
  (let as_ := fill 0 out [] in
   let* not_plain := reads (fun h => some_not_plain h as_) in
   let* a :=
     (if not_plain then ret (last_element as_)
      else let* t := alloc (CObj []) in
           let* _ := Object_assign (VRef t) as_ in
           ret (VRef t)) in
   ret (if isNonEmpty (lefts out) then Left (and "intersection" u (lefts out))
        else Right a)) h1.
Proof.
  intros Hne Hrun. unfold intersection.
  destruct ds as [|d ds]; [congruence|]. cbn [length Nat.eqb].
  now rewrite (bind_normal _ _ _ _ _ (intersection_loop_run _ u 0 [] [] _ _ _ Hrun)).
Qed.

(** C3. [intersection] applies every member to [u]. With no member it
    succeeds with [u]. When some member fails, the result is the [And]
    failure of the errors of the failed members, in order. When every
    member succeeds with a plain record, the result is a new record, the
    shallow merge of those records: the value of a key is that of the last
    record that has it. When every member succeeds and some value is not a
    plain record, the result is the value of the last member. *)
Theorem intersection_spec (u : Val) (h : Heap) :
  intersection [] u h = Normal (Right u) h
  /\ (forall ds out h1,
        ds <> [] ->
        run_same ds u h = Normal out h1 ->
        lefts out <> [] ->
        exists h2, intersection ds u h
                   = Normal (Left (And "intersection" u (lefts out))) h2
                   /\ h1 ⊆ h2)
  /\ (forall ds vs h1,
        ds <> [] ->
        run_same ds u h = Normal (Right <$> vs) h1 ->
        (forall v, In v vs -> is_plain_object h1 v = true) ->
        exists t, h1 !! t = None
                  /\ intersection ds u h
                     = Normal (Right (VRef t))
                         (<[t := CObj (merge (props_of h1 <$> vs))]> h1)
                  /\ (Forall (fun v => NoDup (props_of h1 v).*1) vs ->
                      forall k, obj_lookup k (merge (props_of h1 <$> vs))
                                = lookup_last k (props_of h1 <$> vs)))
  /\ (forall ds vs h1 w,
        ds <> [] ->
        run_same ds u h = Normal (Right <$> vs) h1 ->
        In w vs -> is_plain_object h1 w = false ->
        exists v, last vs = Some v
                  /\ intersection ds u h = Normal (Right v) h1).
Proof.
  split; [reflexivity|]. split; [|split].
  - intros ds out h1 Hne Hrun Hfail.
    rewrite (intersection_nonempty _ _ _ _ _ Hne Hrun). cbv zeta.
    unfold bind at 1. unfold reads.
    assert (Hres : isNonEmpty (lefts out) = true) by (now destruct (lefts out)).
    rewrite Hres.
    destruct (some_not_plain h1 (fill 0 out [])) eqn:Hplain.
    + exists h1. split; reflexivity.
    + destruct (merged_value _ _ Hplain) as (t & Ht & Hm).
      rewrite (bind_normal _ _ _ _ _ Hm). eexists. split; [reflexivity|].
      now apply insert_subseteq.
  - intros ds vs h1 Hne Hrun Hall.
    rewrite (intersection_nonempty _ _ _ _ _ Hne Hrun). cbv zeta.
    change (fill 0 (Right <$> vs) []) with (fill (length (@nil (option Val))) (Right <$> vs) []).
    rewrite fill_dense. simpl app.
    assert (Hl : lefts (Right <$> vs : list Result) = [])
      by (clear; induction vs; simpl; auto).
    rewrite Hl. unfold bind at 1. unfold reads.
    assert (Hplain : some_not_plain h1 (Some <$> vs) = false).
    { rewrite some_not_plain_present.
      destruct (existsb _ vs) eqn:Hex; [|reflexivity].
      apply existsb_exists in Hex as (v & Hv & Hnp).
      rewrite (Hall v Hv) in Hnp. discriminate. }
    rewrite Hplain. destruct (merged_value _ _ Hplain) as (t & Ht & Hm).
    rewrite records_present in Hm.
    exists t. split; [exact Ht|]. split.
    + now rewrite (bind_normal _ _ _ _ _ Hm).
    + intros Hnd k. unfold merge. rewrite lookup_fold_assign.
      * now destruct (lookup_last k _).
      * apply Forall_fmap. exact Hnd.
  - intros ds vs h1 w Hne Hrun Hw Hnp.
    rewrite (intersection_nonempty _ _ _ _ _ Hne Hrun). cbv zeta.
    change (fill 0 (Right <$> vs) []) with (fill (length (@nil (option Val))) (Right <$> vs) []).
    rewrite fill_dense. simpl app.
    assert (Hl : lefts (Right <$> vs : list Result) = [])
      by (clear; induction vs; simpl; auto).
    rewrite Hl. unfold bind at 1. unfold reads.
    assert (Hplain : some_not_plain h1 (Some <$> vs) = true).
    { rewrite some_not_plain_present. apply existsb_exists. exists w.
      now rewrite Hnp. }
    rewrite Hplain. unfold last_element. rewrite fmap_last.
    destruct (last vs) as [v|] eqn:Hlast.
    + exists v. split; reflexivity.
    + apply last_None in Hlast. subst vs. destruct Hw.
Qed.

End Intersection.

(** The witness of [intersection_spec], on [{ a: "y", b: 1 }]: the second
    member fails; two records are merged and the later [a] wins; a member
    that succeeds with a number gives that number. *)
Lemma intersection_spec_witness :
  (exists h2,
      D.intersection [D.type [("a", D.string)];
                      D.type [("a", D.number); ("b", D.number)]]
        Examples.r7 Examples.store
      = JS.Normal (E.Left (DE.And "intersection" Examples.r7
                             [DE.Labeled "type" Examples.r7
                                [("a", DE.Leaf "number" (JS.VStr "y"))]])) h2)
  /\ (exists t h2,
        D.intersection [D.UnknownRecord; D.of_ Examples.r6] Examples.r7 Examples.store
        = JS.Normal (E.Right (JS.VRef t)) h2
        /\ h2 !! t = Some (JS.CObj [("a", Examples.one); ("b", Examples.one)]))
  /\ D.intersection [D.UnknownRecord; D.of_ Examples.one] Examples.r7 Examples.store
     = JS.Normal (E.Right Examples.one) Examples.store.
Proof.
  destruct (intersection_spec Examples.r7 Examples.store) as (_ & Hfail & Hmerge & Hlast).
  split; [|split].
  - edestruct (Hfail [D.type [("a", D.string)];
                      D.type [("a", D.number); ("b", D.number)]])
      as (h2 & Hres & _); [discriminate | vm_compute; reflexivity | discriminate |].
    exists h2. exact Hres.
  - edestruct (Hmerge [D.UnknownRecord; D.of_ Examples.r6] [Examples.r7; Examples.r6])
      as (t & _ & Hres & _); [discriminate | reflexivity | |].
    + intros v [<-|[<-|[]]]; reflexivity.
    + eexists t, _. split; [exact Hres|]. now rewrite lookup_insert_eq.
  - edestruct (Hlast [D.UnknownRecord; D.of_ Examples.one] [Examples.r7; Examples.one])
      as (v & Hv & Hres); [discriminate | reflexivity | right; left; reflexivity
                          | reflexivity |].
    injection Hv as <-. exact Hres.
Defined.

(** ** The error report *)

Section Rendering.
Import JS DE Tree Report.
Local Open Scope list_scope.

Variable JSON_stringify : Heap -> Val -> option Str.
Variable h : Heap.

Lemma flat_map_map {A B C} (f : A -> B) (g : B -> list C) l :
  flat_map g (List.map f l) = flat_map (fun x => g (f x)) l.
Proof. induction l as [|x l IH]; simpl; [reflexivity | now rewrite IH]. Qed.

Lemma flat_map_Forall {A B} (f g : A -> list B) l :
  Forall (fun x => f x = g x) l -> flat_map f l = flat_map g l.
Proof. induction 1 as [|x l Hx _ IH]; simpl; [reflexivity | now rewrite Hx, IH]. Qed.

Lemma prefixed_empty (t : Tree Str) : prefixed EmptyString t = t.
Proof. now destruct t. Qed.

Lemma lines_prefixed d p (t : Tree Str) :
  lines d (prefixed p t)
  = (d, (p ++ value t)%string) :: flat_map (lines (Datatypes.S d)) (forest t).
Proof. reflexivity. Qed.

Lemma append_assoc (s1 s2 s3 : Str) :
  ((s1 ++ s2) ++ s3 = s1 ++ (s2 ++ s3))%string.
Proof.
  induction s1 as [|c s1 IH]; [reflexivity|].
  change (String c ((s1 ++ s2) ++ s3) = String c (s1 ++ (s2 ++ s3)))%string.
  now rewrite IH.
Qed.

Lemma lines_child d (p1 : Str) (t : Tree Str) :
  lines d (make ("(" ++ p1 ++ ") " ++ value t)%string (forest t))
  = lines d (prefixed ("(" ++ p1 ++ ") ")%string t).
Proof.
  unfold prefixed. do 2 f_equal.
  now rewrite !append_assoc.
Qed.

Lemma toTree_report e :
  forall d p,
    lines d (prefixed p (toTree JSON_stringify h e)) = report JSON_stringify h d p e.
Proof.
  induction e as [x a|x a es IH|x a es IH|x a es IH|x a es IH] using DE.DecodeError_ind;
    intros d p; rewrite lines_prefixed; cbn [toTree report value forest]; f_equal.
  - rewrite flat_map_map. apply flat_map_Forall.
    eapply Forall_impl; [exact IH|]. intros [i c] Hc. cbn [snd] in Hc.
    rewrite <- Hc. apply lines_child.
  - rewrite flat_map_map. apply flat_map_Forall.
    eapply Forall_impl; [exact IH|]. intros [k c] Hc. cbn [snd] in Hc.
    rewrite <- Hc. apply lines_child.
  - rewrite flat_map_map. apply flat_map_Forall.
    eapply Forall_impl; [exact IH|]. intros c Hc.
    now rewrite <- Hc, prefixed_empty.
  - rewrite flat_map_map. apply flat_map_Forall.
    eapply Forall_impl; [exact IH|]. intros c Hc.
    now rewrite <- Hc, prefixed_empty.
Qed.

(** C9. The tree built by [toTree], read depth first with the depth of
    every node, is the report of the specification: the line of a node is
    [Cannot decode <JSON of actual>, expected <expected>], the children
    are one level deeper than their parent, a child of an [Indexed] node
    is prefixed by its index in parentheses, a child of a [Labeled] node
    by its quoted key in parentheses, and a child of an [And] or [Or]
    node by nothing. *)
Theorem toTree_spec (e : DecodeError) :
  lines 0 (toTree JSON_stringify h e) = report JSON_stringify h 0 EmptyString e
  /\ value (toTree JSON_stringify h e)
     = ("Cannot decode " ++ template (JSON_stringify h (actual e))
          ++ ", expected " ++ expected e)%string
  /\ length (forest (toTree JSON_stringify h e))
     = match e with
       | Leaf _ _ => 0
       | Indexed _ _ es => length es
       | Labeled _ _ es => length es
       | And _ _ es | Or _ _ es => length es
       end.
Proof.
  split; [|split].
  - rewrite <- toTree_report. now rewrite prefixed_empty.
  - now destruct e.
  - destruct e; simpl; try reflexivity; apply length_map.
Qed.

End Rendering.

(** ** Tuples on short inputs *)

Section TupleShort.
Import JS E DE D Run.
Local Open Scope js_scope.
Local Open Scope list_scope.

Lemma set_index_other a i v h h' l :
  set_index a i v h = Normal tt h' -> a <> VRef l -> h' !! l = h !! l.
Proof.
  unfold set_index. destruct a as [| | | | |la]; try discriminate.
  destruct (h !! la) as [[ps|es]|]; try discriminate.
  intros [= <-] Hne. rewrite lookup_insert_ne; [reflexivity | congruence].
Qed.

Lemma tuple_loop_on ds l elems a i es0 h :
  Forall preserving ds ->
  h !! l = Some (CArr elems) ->
  a <> VRef l ->
  tuple_loop (VRef l) a i ds es0 h =
  (let* out := run_on a i ds (read_at elems <$> seq i (length ds)) in
   ret (es0 ++ keyed_lefts out)) h.
Proof.
  intros Hpres. revert i es0 h.
  induction Hpres as [|d ds Hd Hds IH]; intros i es0 h Hl Ha; simpl.
  - unfold bind, ret. now rewrite app_nil_r.
  - unfold bind, ret, get_index. rewrite Hl. fold (read_at elems i).
    destruct (d (read_at elems i) h) as [[err|v] h2|x] eqn:Hrun; [| |reflexivity].
    + assert (Hl2 : h2 !! l = Some (CArr elems))
        by (eapply lookup_weaken; [exact Hl | eapply Hd; eauto]).
      rewrite (IH _ _ _ Hl2 Ha). unfold bind, ret.
      destruct (run_on _ _ ds _ h2); [|reflexivity].
      simpl. now rewrite <- app_assoc.
    + assert (Hl2 : h2 !! l = Some (CArr elems))
        by (eapply lookup_weaken; [exact Hl | eapply Hd; eauto]).
      destruct (set_index a i v h2) as [[] h3|x] eqn:Hset; [|reflexivity].
      assert (Hl3 : h3 !! l = Some (CArr elems))
        by (rewrite (set_index_other _ _ _ _ _ _ Hset Ha); exact Hl2).
      rewrite (IH _ _ _ Hl3 Ha). unfold bind, ret.
      now destruct (run_on _ _ ds _ h3).
Qed.

Lemma read_past_end (elems : list Val) n :
  length elems <= n ->
  read_at elems <$> seq 0 n = elems ++ replicate (n - length elems) VUndefined.
Proof.
  intros Hle. apply list_eq. intros j. rewrite list_lookup_fmap.
  destruct (decide (j < n)) as [Hj|Hj].
  - rewrite lookup_seq_lt by exact Hj. simpl. unfold read_at.
    destruct (decide (j < length elems)) as [Hje|Hje].
    + rewrite lookup_app_l by exact Hje.
      destruct (lookup_lt_is_Some_2 elems j Hje) as [x Hx]. now rewrite Hx.
    + rewrite lookup_app_r by lia. rewrite lookup_ge_None_2 by lia. simpl.
      symmetry. apply lookup_replicate_2. lia.
  - rewrite lookup_seq_ge by lia. simpl. symmetry. apply lookup_ge_None_2.
    rewrite length_app, length_replicate. lia.
Qed.

(** C10. A tuple of [n] decoders on an array of fewer than [n] elements
    makes no test of the length: it is the run of the [n] members on the
    elements of the array followed by [undefined] for every missing
    position, and its result is collected from the results of the members
    as for any tuple. The member decoders are assumed to leave existing
    objects, hence the input array, as they are. *)
Theorem tuple_short_input (ds : list Decoder) (l : loc) (elems : list Val) (h : Heap) :
  Forall preserving ds ->
  h !! l = Some (CArr elems) ->
  length elems < length ds ->
  let u := VRef l in
  let inputs := elems ++ replicate (length ds - length elems) VUndefined in
  (forall i, length elems <= i < length ds -> inputs !! i = Some VUndefined)
  /\ tuple ds u h =
     (let* a := alloc (CArr (replicate (length ds) VUndefined)) in
      let* out := run_on (VRef a) 0 ds inputs in
      ret (match keyed_lefts out with
           | [] => Right (VRef a)
           | es => Left (Indexed "tuple" u es)
           end)) h.
Proof.
  intros Hpres Hl Hlen u inputs. split.
  - intros i Hi. unfold inputs. rewrite lookup_app_r by lia.
    apply lookup_replicate_2. lia.
  - unfold tuple, UnknownArray, fromRefinement.
    unfold bind at 1. unfold reads, fromPredicate, G.UnknownArray_is, u.
    cbn [is_array]. rewrite Hl. unfold bind, ret.
    destruct (alloc _ h) as [a h1|x] eqn:Ha; [|reflexivity].
    assert (Hl1 : h1 !! l = Some (CArr elems)) by (eapply alloc_lookup; eauto).
    assert (Hne : VRef a <> VRef l).
    { apply alloc_inv in Ha as [Hfresh _]. intros [= ->]. congruence. }
    rewrite (tuple_loop_on _ _ _ _ _ _ _ Hpres Hl1 Hne).
    rewrite read_past_end by lia. fold inputs. unfold bind, ret.
    destruct (run_on _ _ ds inputs h1) as [out h2|x]; [|reflexivity].
    simpl. now destruct (keyed_lefts out).
Qed.

Lemma preserving_fromRefinement p x : preserving (fromRefinement p x).
Proof. intros u h r h'. unfold fromRefinement, reads. now intros [= _ <-]. Qed.

End TupleShort.

(** The witness of [tuple_short_input], on the array [["a"]]: the second
    member is applied to [undefined]; [number] rejects it, a decoder that
    accepts [undefined] makes the tuple succeed. *)
Lemma tuple_short_input_witness :
  (exists h1,
      D.tuple [D.string; D.number] Examples.a5 Examples.store
      = JS.Normal (E.Left (DE.Indexed "tuple" Examples.a5
                             [(1, DE.Leaf "number" JS.VUndefined)])) h1)
  /\ (exists a h1,
        D.tuple [D.string; Examples.undefined_] Examples.a5 Examples.store
        = JS.Normal (E.Right (JS.VRef a)) h1
        /\ h1 !! a = Some (JS.CArr [JS.VStr "a"; JS.VUndefined])).
Proof.
  split.
  - destruct (tuple_short_input [D.string; D.number] 5%positive [JS.VStr "a"]
                Examples.store) as [_ H].
    + repeat constructor; apply preserving_fromRefinement.
    + reflexivity.
    + simpl. lia.
    + unfold Examples.a5. rewrite H. eexists. vm_compute. reflexivity.
  - destruct (tuple_short_input [D.string; Examples.undefined_] 5%positive [JS.VStr "a"]
                Examples.store) as [_ H].
    + repeat constructor; apply preserving_fromRefinement.
    + reflexivity.
    + simpl. lia.
    + unfold Examples.a5. rewrite H. eexists _, _.
      split; [vm_compute; reflexivity|]. reflexivity.
Defined.

(** ** The invariant of the errors *)

Section WellFormed.
Import JS E DE D Run Engine.
Local Open Scope js_scope.
Local Open Scope list_scope.

Lemma wf_Labeled x a es :
  es <> [] -> Forall (fun ke => wf ke.2) es -> wf (Labeled x a es).
Proof.
  intros Hne Hall. simpl. split; [exact Hne|]. clear Hne.
  induction Hall as [|[k c] l Hc _ IH]; simpl; [exact I | split; [exact Hc | exact IH]].
Qed.

Lemma wf_Indexed x a es :
  es <> [] -> Forall (fun ie => wf ie.2) es -> wf (Indexed x a es).
Proof.
  intros Hne Hall. simpl. split; [exact Hne|]. clear Hne.
  induction Hall as [|[k c] l Hc _ IH]; simpl; [exact I | split; [exact Hc | exact IH]].
Qed.

Lemma wf_And x a es : es <> [] -> Forall wf es -> wf (And x a es).
Proof.
  intros Hne Hall. simpl. split; [exact Hne|]. clear Hne.
  induction Hall as [|c l Hc _ IH]; simpl; [exact I | split; [exact Hc | exact IH]].
Qed.

Lemma wf_Or x a es : es <> [] -> Forall wf es -> wf (Or x a es).
Proof.
  intros Hne Hall. simpl. split; [exact Hne|]. clear Hne.
  induction Hall as [|c l Hc _ IH]; simpl; [exact I | split; [exact Hc | exact IH]].
Qed.

Lemma wf_with_expected x e : wf e -> wf (with_expected x e).
Proof. destruct e; simpl; auto. Qed.

Lemma run_members_wf {K} wanted (fetch : K -> M Val) store ms h out h1 :
  Forall (fun kd => well_formed_errors kd.2) ms ->
  run_members wanted fetch store ms h = Normal out h1 ->
  Forall (fun ke => wf ke.2) (keyed_lefts out).
Proof.
  intros Hms. revert h out. induction Hms as [|[k d] ms Hd _ IH]; intros h out H; simpl in H.
  - injection H as <- <-. constructor.
  - apply bind_inv in H as (x & h2 & _ & H). destruct (wanted x); [|eauto].
    apply bind_inv in H as (e & h3 & He & H).
    apply bind_inv in H as (? & h4 & _ & H).
    apply bind_inv in H as (out' & h5 & Hr & [= <- <-]).
    destruct e as [err|v]; simpl; [|eauto].
    constructor; [|eauto]. simpl. eapply Hd; eauto.
Qed.

Lemma run_same_wf ds u h out h1 :
  Forall well_formed_errors ds ->
  run_same ds u h = Normal out h1 ->
  Forall wf (lefts out).
Proof.
  intros Hds. revert h out. induction Hds as [|d ds Hd _ IH]; intros h out H; simpl in H.
  - injection H as <- <-. constructor.
  - apply bind_inv in H as (e & h2 & He & H).
    apply bind_inv in H as (out' & h3 & Hr & [= <- <-]).
    destruct e as [err|v]; simpl; [|eauto].
    constructor; [|eauto]. eapply Hd; eauto.
Qed.

Lemma collect_Labeled_wf x u a (out : list (Str * Result)) e :
  Forall (fun ke => wf ke.2) (keyed_lefts out) ->
  collect (Labeled x u) a out = Left e -> wf e.
Proof.
  unfold collect. intros Hall. destruct (keyed_lefts out) eqn:Hk; [discriminate|].
  intros [= <-]. now apply wf_Labeled.
Qed.

Lemma collect_Indexed_wf x u a (out : list (nat * Result)) e :
  Forall (fun ke => wf ke.2) (keyed_lefts out) ->
  collect (Indexed x u) a out = Left e -> wf e.
Proof.
  unfold collect. intros Hall. destruct (keyed_lefts out) eqn:Hk; [discriminate|].
  intros [= <-]. now apply wf_Indexed.
Qed.

Lemma Forall_members (ds : list (Str * Decoder)) (Q : Decoder -> Prop) :
  Forall Q ds.*2 -> Forall (fun kd => Q kd.2) ds.
Proof.
  induction ds as [|[k d] ds IH]; intros H; [constructor|].
  apply Forall_cons in H as [Hd H]. constructor; auto.
Qed.

Lemma Forall_same {K} (d : Decoder) (ks : list K) (Q : Decoder -> Prop) :
  Q d -> Forall (fun kd => Q kd.2) (List.map (fun k => (k, d)) ks).
Proof. intros Hd. induction ks; simpl; constructor; auto. Qed.

Lemma Forall_by_index i (ds : list Decoder) (Q : Decoder -> Prop) :
  Forall Q ds -> Forall (fun kd => Q kd.2) (by_index i ds).
Proof.
  intros H. revert i. induction H as [|d ds Hd _ IH]; intros i; [constructor|].
  unfold by_index. simpl. constructor; [exact Hd | apply IH].
Qed.

(** When the first test of a structural decoder fails, its failure is
    the leaf of that test. *)
Lemma fromRefinement_inv p x u h r h' :
  fromRefinement p x u h = Normal r h' ->
  h' = h /\ (p h u = true /\ r = Right u \/ p h u = false /\ r = Left (Leaf x u)).
Proof.
  unfold fromRefinement, reads, fromPredicate. intros [= <- <-]. split; [reflexivity|].
  destruct (p h u); auto.
Qed.

Lemma wf_fromRefinement p x : well_formed_errors (fromRefinement p x).
Proof.
  intros u h e h' H. apply fromRefinement_inv in H as (_ & [[_ H]|[_ H]]);
    [discriminate | now injection H as ->].
Qed.

Lemma wf_never : well_formed_errors never.
Proof. intros u h e h'. unfold never, ret. now intros [= <- _]. Qed.

Lemma wf_mapLeft d f :
  well_formed_errors d -> (forall e, wf e -> wf (f e)) ->
  well_formed_errors (mapLeft d f).
Proof.
  intros Hd Hf u h e h' H. unfold mapLeft in H.
  apply bind_inv in H as ([e0|v] & h1 & He & [= <- <-]). eauto.
Qed.

Lemma wf_refinement d p x :
  well_formed_errors d -> well_formed_errors (refinement d p x).
Proof.
  intros Hd u h e h' H. unfold refinement in H.
  apply bind_inv in H as ([e0|v] & h1 & He & H).
  - injection H as <- <-. eauto.
  - unfold reads, fromPredicate in H. destruct (p h1 v); [discriminate|].
    now injection H as <- <-.
Qed.

Lemma wf_type ds :
  Forall well_formed_errors ds.*2 -> well_formed_errors (type ds).
Proof.
  intros Hds u h e h' H. destruct (G.UnknownRecord_is h u) eqn:Hu.
  - rewrite (type_as_run _ _ _ Hu) in H.
    apply bind_inv in H as ([a out] & h1 & Hrun & [= Hc <-]).
    unfold type_run in Hrun. apply bind_inv in Hrun as (a' & h2 & _ & Hrun).
    apply bind_inv in Hrun as (out' & h3 & Hrun & [= <- <- <-]).
    eapply collect_Labeled_wf; [|exact Hc].
    eapply run_members_wf; [|exact Hrun]. now apply Forall_members.
  - unfold type, UnknownRecord, fromRefinement, bind, reads, fromPredicate in H.
    rewrite Hu in H. now injection H as <- <-.
Qed.

Lemma wf_partial ds :
  Forall well_formed_errors ds.*2 -> well_formed_errors (partial ds).
Proof.
  intros Hds u h e h' H. destruct (G.UnknownRecord_is h u) eqn:Hu.
  - rewrite (partial_as_run _ _ _ Hu) in H.
    apply bind_inv in H as ([a out] & h1 & Hrun & [= Hc <-]).
    unfold partial_run in Hrun. apply bind_inv in Hrun as (a' & h2 & _ & Hrun).
    apply bind_inv in Hrun as (out' & h3 & Hrun & [= <- <- <-]).
    eapply collect_Labeled_wf; [|exact Hc].
    eapply run_members_wf; [|exact Hrun]. now apply Forall_members.
  - unfold partial, UnknownRecord, fromRefinement, bind, reads, fromPredicate in H.
    rewrite Hu in H. now injection H as <- <-.
Qed.

Lemma wf_record d : well_formed_errors d -> well_formed_errors (record d).
Proof.
  intros Hd u h e h' H. destruct (G.UnknownRecord_is h u) eqn:Hu.
  - rewrite (record_as_run _ _ _ Hu) in H.
    apply bind_inv in H as ([a out] & h1 & Hrun & [= Hc <-]).
    unfold record_run in Hrun. apply bind_inv in Hrun as (a' & h2 & _ & Hrun).
    apply bind_inv in Hrun as (keys & h3 & _ & Hrun).
    apply bind_inv in Hrun as (out' & h4 & Hrun & [= <- <- <-]).
    eapply collect_Labeled_wf; [|exact Hc].
    eapply run_members_wf; [|exact Hrun]. now apply Forall_same.
  - unfold record, UnknownRecord, fromRefinement, bind, reads, fromPredicate in H.
    rewrite Hu in H. now injection H as <- <-.
Qed.

Lemma wf_array d : well_formed_errors d -> well_formed_errors (array d).
Proof.
  intros Hd u h e h' H. destruct (G.UnknownArray_is h u) eqn:Hu.
  - rewrite (array_as_run _ _ _ Hu) in H.
    apply bind_inv in H as ([a out] & h1 & Hrun & [= Hc <-]).
    unfold array_run in Hrun. apply bind_inv in Hrun as (len & h2 & _ & Hrun).
    apply bind_inv in Hrun as (a' & h3 & _ & Hrun).
    apply bind_inv in Hrun as (out' & h4 & Hrun & [= <- <- <-]).
    eapply collect_Indexed_wf; [|exact Hc].
    eapply run_members_wf; [|exact Hrun]. now apply Forall_same.
  - unfold array, UnknownArray, fromRefinement, bind, reads, fromPredicate in H.
    rewrite Hu in H. now injection H as <- <-.
Qed.

Lemma wf_tuple ds : Forall well_formed_errors ds -> well_formed_errors (tuple ds).
Proof.
  intros Hds u h e h' H. destruct (G.UnknownArray_is h u) eqn:Hu.
  - rewrite (tuple_as_run _ _ _ Hu) in H.
    apply bind_inv in H as ([a out] & h1 & Hrun & [= Hc <-]).
    unfold tuple_run in Hrun. apply bind_inv in Hrun as (a' & h2 & _ & Hrun).
    apply bind_inv in Hrun as (out' & h3 & Hrun & [= <- <- <-]).
    eapply collect_Indexed_wf; [|exact Hc].
    eapply run_members_wf; [|exact Hrun]. now apply Forall_by_index.
  - unfold tuple, UnknownArray, fromRefinement, bind, reads, fromPredicate in H.
    rewrite Hu in H. now injection H as <- <-.
Qed.

Lemma intersection_loop_inv ds u i as_ es h r h1 :
  intersection_loop u i ds as_ es h = Normal r h1 ->
  exists out, run_same ds u h = Normal out h1
              /\ r = (fill i out as_, es ++ lefts out).
Proof.
  revert i as_ es h. induction ds as [|d ds IH]; intros i as_ es h H; simpl in *.
  - injection H as <- <-. exists []. simpl. now rewrite app_nil_r.
  - apply bind_inv in H as (e & h2 & Hd & H). rewrite (bind_normal _ _ _ _ _ Hd).
    destruct e as [err|v]; apply IH in H as (out & Hrun & ->);
      rewrite (bind_normal _ _ _ _ _ Hrun); eexists; (split; [reflexivity|]); simpl.
    + now rewrite <- app_assoc.
    + reflexivity.
Qed.

Lemma wf_intersection ds :
  Forall well_formed_errors ds -> well_formed_errors (intersection ds).
Proof.
  intros Hds u h e h' H. unfold intersection in H.
  destruct (Nat.eqb (length ds) 0); [discriminate|].
  apply bind_inv in H as (r & h1 & Hloop & H).
  apply intersection_loop_inv in Hloop as (out & Hrun & ->). simpl in H.
  apply bind_inv in H as (np & h2 & _ & H).
  apply bind_inv in H as (a & h3 & _ & H).
  destruct (lefts out) as [|e0 es] eqn:Hl; [discriminate|].
  injection H as <- <-. apply wf_And; [discriminate|]. rewrite <- Hl.
  eapply run_same_wf; eauto.
Qed.

Lemma wf_lazy f : well_formed_errors (f tt) -> well_formed_errors (lazy f).
Proof. intros Hf u h e h' H. eapply Hf. exact H. Qed.

Lemma wf_def_lookup s (def : list (Str * Decoder)) d :
  Forall well_formed_errors def.*2 -> def_lookup s def = Some d ->
  well_formed_errors d.
Proof.
  induction def as [|[k d0] def IH]; intros Hall Hd; [discriminate|].
  apply Forall_cons in Hall as [Hd0 Hall]. simpl in Hd.
  destruct (String.eqb s k); [now injection Hd as <- | auto].
Qed.

Lemma wf_sum tag def :
  Forall well_formed_errors def.*2 -> well_formed_errors (sum tag def).
Proof.
  intros Hdef u h e h' H. unfold sum in H.
  destruct (Nat.eqb (length def.*1) 0); [now apply wf_never in H|].
  apply bind_inv in H as (r & h1 & Hr & H).
  apply fromRefinement_inv in Hr as (-> & [[_ ->]|[_ ->]]).
  - apply bind_inv in H as (v & h2 & _ & H).
    assert (Hleaf : forall x, wf (labeled "sum" u [(tag, leaf x v)]))
      by (intros x; simpl; repeat split; discriminate).
    destruct v as [| | | |s|]; try (injection H as <- <-; apply Hleaf).
    destruct (def_lookup s def) as [d|] eqn:Hd; [|injection H as <- <-; apply Hleaf].
    apply bind_inv in H as ([e0|a] & h3 & He & H).
    + injection H as <- <-. eapply wf_def_lookup; eauto.
    + apply bind_inv in H as (? & h4 & _ & H). discriminate.
  - now injection H as <- <-.
Qed.

Lemma union_loop_wf ds u es0 h e h' :
  Forall well_formed_errors ds ->
  es0 <> [] -> Forall wf es0 ->
  union_loop u ds es0 h = Normal (Left e) h' -> wf e.
Proof.
  intros Hds. revert es0 h. induction Hds as [|d ds Hd _ IH]; intros es0 h Hne Hes H; simpl in H.
  - injection H as <- <-. now apply wf_Or.
  - apply bind_inv in H as ([err|v] & h1 & He & H); [|discriminate].
    apply (IH (es0 ++ [err]) h1); [| |exact H].
    + now destruct es0.
    + apply Forall_app. split; [exact Hes|]. constructor; [|constructor]. eauto.
Qed.

Lemma wf_union ds : Forall well_formed_errors ds -> well_formed_errors (union ds).
Proof.
  intros Hds u h e h' H. destruct Hds as [|d ds Hd Hds]; [now apply wf_never in H|].
  simpl in H. apply bind_inv in H as ([err|v] & h1 & He & H); [|discriminate].
  apply (union_loop_wf ds u [err] h1 e h' Hds); [discriminate| |exact H].
  constructor; [|constructor]. eauto.
Qed.

Lemma wf_alt fx fy :
  well_formed_errors fx -> well_formed_errors (fy tt) -> well_formed_errors (alt fx fy).
Proof.
  intros Hx Hy u h e h' H. unfold alt in H.
  apply bind_inv in H as ([err|v] & h1 & He & H); [eauto | discriminate].
Qed.

(** C8. In every error returned by a decoder of the engine, every
    [Indexed], [Labeled], [And] and [Or] node has at least one child. *)
Theorem engine_errors_well_formed (rec : bool) (d : Decoder) :
  engine rec d -> forall u h e h', d u h = Normal (Left e) h' -> wf e.
Proof.
  intros Hd. change (well_formed_errors d). revert d Hd.
  apply (engine_mut rec well_formed_errors (Forall well_formed_errors)).
  - intros. apply wf_fromRefinement.
  - apply wf_never.
  - intros _ u h e h' H. discriminate H.
  - intros. now apply wf_mapLeft.
  - intros. now apply wf_refinement.
  - intros. now apply wf_type.
  - intros. now apply wf_partial.
  - intros. now apply wf_record.
  - intros. now apply wf_array.
  - intros. now apply wf_tuple.
  - intros. now apply wf_intersection.
  - intros. now apply wf_lazy.
  - intros. now apply wf_sum.
  - intros. now apply wf_union.
  - intros. now apply wf_alt.
  - constructor.
  - intros. now constructor.
Qed.

End WellFormed.

(** The witness of [engine_errors_well_formed]: the failure of a [type]
    with two failing fields. *)
Lemma engine_errors_well_formed_witness :
  exists e h', D.type Examples.abc Examples.r1 Examples.store = JS.Normal (E.Left e) h'
               /\ DE.wf e.
Proof.
  assert (Heng : Engine.engine false (D.type Examples.abc))
    by (apply Engine.eng_type; repeat apply Engine.engs_cons;
        try apply Engine.eng_fromRefinement; apply Engine.engs_nil).
  eexists _, _. split; [vm_compute; reflexivity|].
  eapply (engine_errors_well_formed _ _ Heng Examples.r1 Examples.store).
  vm_compute. reflexivity.
Defined.

(** ** The input is left as it is *)

Section Frame.
Import JS E DE D Run Engine.
Local Open Scope js_scope.
Local Open Scope list_scope.

(** Whether the decoders may be unfoldings of self-referential decoders. *)
Variable rec : bool.

Lemma plain_weaken h h' v :
  h ⊆ h' -> is_plain_object h v = true -> is_plain_object h' v = true.
Proof.
  unfold is_plain_object. intros Hsub. destruct v as [| | | | |l]; try discriminate.
  destruct (h !! l) as [[ps|es]|] eqn:Hl; try discriminate.
  now rewrite (lookup_weaken _ _ _ _ Hl Hsub).
Qed.

Lemma fresh_weaken (h h' : Heap) l : h ⊆ h' -> h' !! l = None -> h !! l = None.
Proof. intros Hsub Hl. eapply lookup_weaken_None; eauto. Qed.

Lemma returns_safely_later u h h1 res :
  h ⊆ h1 -> returns_safely u h1 res -> returns_safely u h res.
Proof.
  intros Hsub (r & h' & -> & Hsub' & Ha). exists r, h'. split; [reflexivity|].
  split; [now transitivity h1|]. intros a Hra. destruct (Ha a Hra) as [Hfresh Hplain].
  split.
  - destruct Hfresh as [->|(l & -> & Hl)]; [now left|]. right. exists l.
    split; [reflexivity|]. eapply fresh_weaken; eauto.
  - intros Hu. apply Hplain. eapply plain_weaken; eauto.
Qed.

Lemma safe_fromRefinement p x : input_safe rec (fromRefinement p x).
Proof.
  intros u h. left. unfold fromRefinement, reads, fromPredicate.
  eexists _, h. split; [reflexivity|]. split; [reflexivity|].
  intros a Ha. destruct (p h u); [|discriminate]. injection Ha as <-. auto.
Qed.

Lemma safe_never : input_safe rec never.
Proof.
  intros u h. left. eexists _, h. split; [reflexivity|]. split; [reflexivity|].
  discriminate.
Qed.

Lemma safe_out_of_fuel : rec = true -> input_safe rec out_of_fuel.
Proof. intros Hrec u h. right. now split. Qed.

Lemma safe_mapLeft d f : input_safe rec d -> input_safe rec (mapLeft d f).
Proof.
  intros Hd u h. unfold mapLeft.
  destruct (Hd u h) as [(r & h' & Hr & Hsub & Ha)|[Hrec Ht]].
  - left. rewrite (bind_normal _ _ _ _ _ Hr).
    eexists _, h'. split; [reflexivity|]. split; [exact Hsub|].
    intros a Hra. destruct r as [e|v]; [discriminate|]. apply Ha. exact Hra.
  - right. split; [exact Hrec|]. now rewrite (bind_throw _ _ _ _ Ht).
Qed.

Lemma safe_refinement d p x : input_safe rec d -> input_safe rec (refinement d p x).
Proof.
  intros Hd u h. unfold refinement.
  destruct (Hd u h) as [(r & h' & Hr & Hsub & Ha)|[Hrec Ht]].
  - left. rewrite (bind_normal _ _ _ _ _ Hr). destruct r as [e|v].
    + eexists _, h'. split; [reflexivity|]. split; [exact Hsub|]. discriminate.
    + unfold reads, fromPredicate. eexists _, h'. split; [reflexivity|].
      split; [exact Hsub|]. intros a Hra. destruct (p h' v); [|discriminate].
      injection Hra as <-. now apply Ha.
  - right. split; [exact Hrec|]. now rewrite (bind_throw _ _ _ _ Ht).
Qed.

Lemma safe_lazy f : input_safe rec (f tt) -> input_safe rec (lazy f).
Proof. intros Hf u h. apply Hf. Qed.

Lemma safe_alt fx fy :
  input_safe rec fx -> input_safe rec (fy tt) -> input_safe rec (alt fx fy).
Proof.
  intros Hx Hy u h. unfold alt.
  destruct (Hx u h) as [(r & h1 & Hr & Hsub & Ha)|[Hrec Ht]].
  - rewrite (bind_normal _ _ _ _ _ Hr). destruct r as [e|v].
    + destruct (Hy u h1) as [Hret|[Hrec Ht]].
      * left. eapply returns_safely_later; eauto.
      * right. now split.
    + left. eexists _, h1. split; [reflexivity|]. split; [exact Hsub|].
      intros a [= <-]. now apply Ha.
  - right. split; [exact Hrec|]. now rewrite (bind_throw _ _ _ _ Ht).
Qed.

(** The members of a structural decoder, run on a store that extends
    [h0], with the result object [a] allocated after [h0]. *)
Lemma run_members_safe {K} wanted (fetch : K -> M Val) (store : K -> Val -> M unit)
  (h0 : Heap) (a : loc) (good : Cell -> Prop) ms :
  (forall k h, h0 ⊆ h -> exists x, fetch k h = Normal x h) ->
  (forall k v h c, h !! a = Some c -> good c ->
     exists c', store k v h = Normal tt (<[a := c']> h) /\ good c') ->
  h0 !! a = None ->
  Forall (fun kd => input_safe rec kd.2) ms ->
  forall h c, h0 ⊆ h -> h !! a = Some c -> good c ->
    (exists out h' c',
        run_members wanted fetch store ms h = Normal out h'
        /\ h0 ⊆ h' /\ h' !! a = Some c' /\ good c')
    \/ (rec = true /\ run_members wanted fetch store ms h = Throw OutOfFuel).
Proof.
  intros Hfetch Hstore Ha Hms.
  induction Hms as [|[k d] ms Hd _ IH]; intros h c Hsub Hc Hgood; simpl.
  - left. exists [], h, c. repeat split; auto.
  - destruct (Hfetch k h Hsub) as (x & Hx). rewrite (bind_normal _ _ _ _ _ Hx).
    destruct (wanted x); [|now apply (IH h c)].
    destruct (Hd x h) as [(r & h1 & Hr & Hsub1 & _)|[Hrec Ht]]; simpl in *.
    2:{ right. split; [exact Hrec|]. now rewrite (bind_throw _ _ _ _ Ht). }
    rewrite (bind_normal _ _ _ _ _ Hr).
    assert (Hc1 : h1 !! a = Some c) by (eapply lookup_weaken; eauto).
    assert (Hsub01 : h0 ⊆ h1) by (now transitivity h).
    destruct r as [e|v].
    + rewrite !bind_ret.
      destruct (IH h1 c Hsub01 Hc1 Hgood)
        as [(out & h' & c' & Hrun & Hs & Hc' & Hg)|[Hrec Ht]].
      * left. rewrite (bind_normal _ _ _ _ _ Hrun). eexists _, h', c'.
        repeat split; eauto.
      * right. split; [exact Hrec|]. now rewrite (bind_throw _ _ _ _ Ht).
    + destruct (Hstore k v h1 c Hc1 Hgood) as (c1 & Hst & Hg1).
      rewrite (bind_normal _ _ _ _ _ Hst).
      destruct (IH (<[a := c1]> h1) c1)
        as [(out & h' & c' & Hrun & Hs & Hc' & Hg)|[Hrec Ht]];
        [now apply insert_subseteq_r | apply lookup_insert_eq | exact Hg1 | |].
      * left. rewrite (bind_normal _ _ _ _ _ Hrun). eexists _, h', c'.
        repeat split; eauto.
      * right. split; [exact Hrec|]. now rewrite (bind_throw _ _ _ _ Ht).
Qed.

Lemma get_prop_total u h0 :
  is_plain_object h0 u = true ->
  forall (k : Str) h, h0 ⊆ h -> exists x, get_prop u k h = Normal x h.
Proof.
  intros Hu k h Hsub. apply (plain_weaken _ _ _ Hsub) in Hu.
  unfold is_plain_object in Hu. unfold get_prop.
  destruct u as [| | | | |l]; try discriminate.
  destruct (h !! l) as [[ps|es]|]; try discriminate. eauto.
Qed.

Lemma get_index_total u h0 :
  is_array h0 u = true ->
  forall (i : nat) h, h0 ⊆ h -> exists x, get_index u i h = Normal x h.
Proof.
  intros Hu i h Hsub. unfold is_array in Hu. unfold get_index.
  destruct u as [| | | | |l]; try discriminate.
  destruct (h0 !! l) as [[ps|es]|] eqn:Hl; try discriminate.
  rewrite (lookup_weaken _ _ _ _ Hl Hsub). eauto.
Qed.

Lemma set_prop_total a :
  forall (k : Str) v h c, h !! a = Some c -> is_obj c ->
    exists c', set_prop (VRef a) k v h = Normal tt (<[a := c']> h) /\ is_obj c'.
Proof.
  intros k v h c Hc [ps ->]. unfold set_prop. rewrite Hc.
  eexists. split; [reflexivity|]. now eexists.
Qed.

Lemma set_index_total a :
  forall (i : nat) v h c, h !! a = Some c -> is_arr c ->
    exists c', set_index (VRef a) i v h = Normal tt (<[a := c']> h) /\ is_arr c'.
Proof.
  intros i v h c Hc [es ->]. unfold set_index. rewrite Hc.
  eexists. split; [reflexivity|]. now eexists.
Qed.

(** The result collected from the members, with the new object at [a]. *)
Lemma collect_safe {K} (wrap : list (K * DecodeError) -> DecodeError) (a : loc)
  (out : list (K * Result)) (u : Val) (h h' : Heap) c (good : Cell -> Prop) :
  h ⊆ h' -> h !! a = None -> h' !! a = Some c -> good c ->
  (is_plain_object h u = true -> is_obj c) ->
  returns_safely u h (Normal (collect wrap a out) h').
Proof.
  intros Hsub Ha Hc Hg Hobj. eexists _, h'. split; [reflexivity|].
  split; [exact Hsub|]. intros v Hv. unfold collect in Hv.
  destruct (keyed_lefts out); [|discriminate]. injection Hv as <-. split.
  - right. now exists a.
  - intros Hu. destruct (Hobj Hu) as [ps ->]. simpl. now rewrite Hc.
Qed.

Lemma first_test_fails (p : G.Refinement) x (k : Val -> M Result) u h :
  p h u = false ->
  returns_safely u h
    ((let* e := fromRefinement p x u in
      match e with Left _ => ret e | Right r => k r end) h).
Proof.
  intros Hp. unfold bind, fromRefinement, reads, fromPredicate. rewrite Hp.
  eexists _, h. split; [reflexivity|]. split; [reflexivity|]. discriminate.
Qed.

Lemma safe_type ds : Forall (input_safe rec) ds.*2 -> input_safe rec (type ds).
Proof.
  intros Hds u h. destruct (G.UnknownRecord_is h u) eqn:Hu;
    [|left; now apply first_test_fails].
  rewrite (type_as_run _ _ _ Hu). unfold type_run.
  destruct (alloc (CObj []) h) as [a h1|x] eqn:Ha; [|discriminate].
  apply alloc_inv in Ha as Hinv. destruct Hinv as [Hfresh ->].
  rewrite !bind_assoc, (bind_normal _ _ _ _ _ Ha), !bind_assoc.
  destruct (run_members_safe (fun _ => true) (get_prop u) (set_prop (VRef a)) h a is_obj ds
              (get_prop_total u h Hu) (set_prop_total a) Hfresh (Forall_members _ _ Hds)
              (<[a := CObj []]> h) (CObj []))
    as [(out & h' & c' & Hrun & Hsub & Hc' & Hg)|[Hrec Ht]];
    [now apply insert_subseteq | apply lookup_insert_eq | now eexists | |].
  - left. rewrite (bind_normal _ _ _ _ _ Hrun). unfold bind, ret.
    eapply collect_safe; eauto.
  - right. split; [exact Hrec|]. now rewrite (bind_throw _ _ _ _ Ht).
Qed.

Lemma safe_partial ds : Forall (input_safe rec) ds.*2 -> input_safe rec (partial ds).
Proof.
  intros Hds u h. destruct (G.UnknownRecord_is h u) eqn:Hu;
    [|left; now apply first_test_fails].
  rewrite (partial_as_run _ _ _ Hu). unfold partial_run.
  destruct (alloc (CObj []) h) as [a h1|x] eqn:Ha; [|discriminate].
  apply alloc_inv in Ha as Hinv. destruct Hinv as [Hfresh ->].
  rewrite !bind_assoc, (bind_normal _ _ _ _ _ Ha), !bind_assoc.
  destruct (run_members_safe not_undefined (get_prop u) (set_prop (VRef a)) h a is_obj ds
              (get_prop_total u h Hu) (set_prop_total a) Hfresh (Forall_members _ _ Hds)
              (<[a := CObj []]> h) (CObj []))
    as [(out & h' & c' & Hrun & Hsub & Hc' & Hg)|[Hrec Ht]];
    [now apply insert_subseteq | apply lookup_insert_eq | now eexists | |].
  - left. rewrite (bind_normal _ _ _ _ _ Hrun). unfold bind, ret.
    eapply collect_safe; eauto.
  - right. split; [exact Hrec|]. now rewrite (bind_throw _ _ _ _ Ht).
Qed.

Lemma own_keys_total u h0 h :
  is_plain_object h0 u = true -> h0 ⊆ h ->
  exists keys, own_keys u h = Normal keys h.
Proof.
  intros Hu Hsub. apply (plain_weaken _ _ _ Hsub) in Hu.
  unfold is_plain_object in Hu. unfold own_keys.
  destruct u as [| | | | |l]; try discriminate.
  destruct (h !! l) as [[ps|es]|]; try discriminate. eauto.
Qed.

Lemma safe_record d : input_safe rec d -> input_safe rec (record d).
Proof.
  intros Hd u h. destruct (G.UnknownRecord_is h u) eqn:Hu;
    [|left; now apply first_test_fails].
  rewrite (record_as_run _ _ _ Hu). unfold record_run.
  destruct (alloc (CObj []) h) as [a h1|x] eqn:Ha; [|discriminate].
  apply alloc_inv in Ha as Hinv. destruct Hinv as [Hfresh ->].
  assert (Hsub1 : h ⊆ <[a := CObj []]> h) by now apply insert_subseteq.
  destruct (own_keys_total u h _ Hu Hsub1) as (keys & Hkeys).
  rewrite !bind_assoc, (bind_normal _ _ _ _ _ Ha), !bind_assoc.
  rewrite (bind_normal _ _ _ _ _ Hkeys), !bind_assoc.
  destruct (run_members_safe (fun _ => true) (get_prop u) (set_prop (VRef a)) h a is_obj
              (List.map (fun k => (k, d)) keys)
              (get_prop_total u h Hu) (set_prop_total a) Hfresh (Forall_same d keys _ Hd)
              (<[a := CObj []]> h) (CObj []))
    as [(out & h' & c' & Hrun & Hsub & Hc' & Hg)|[Hrec Ht]];
    [exact Hsub1 | apply lookup_insert_eq | now eexists | |].
  - left. rewrite (bind_normal _ _ _ _ _ Hrun). unfold bind, ret.
    eapply collect_safe; eauto.
  - right. split; [exact Hrec|]. now rewrite (bind_throw _ _ _ _ Ht).
Qed.

Lemma array_not_plain h u : is_array h u = true -> is_plain_object h u = false.
Proof.
  unfold is_array, is_plain_object. destruct u as [| | | | |l]; try discriminate.
  now destruct (h !! l) as [[ps|es]|].
Qed.

Lemma safe_array d : input_safe rec d -> input_safe rec (array d).
Proof.
  intros Hd u h. destruct (G.UnknownArray_is h u) eqn:Hu;
    [|left; now apply first_test_fails].
  rewrite (array_as_run _ _ _ Hu). unfold array_run.
  assert (Hlen : exists len, array_length u h = Normal len h).
  { unfold G.UnknownArray_is, is_array in Hu. unfold array_length.
    destruct u as [| | | | |l]; try discriminate.
    destruct (h !! l) as [[ps|es]|]; try discriminate. eauto. }
  destruct Hlen as (len & Hlen).
  destruct (alloc (CArr (replicate len VUndefined)) h) as [a h1|x] eqn:Ha; [|discriminate].
  apply alloc_inv in Ha as Hinv. destruct Hinv as [Hfresh ->].
  rewrite !bind_assoc, (bind_normal _ _ _ _ _ Hlen), !bind_assoc.
  rewrite (bind_normal _ _ _ _ _ Ha), !bind_assoc.
  destruct (run_members_safe (fun _ => true) (get_index u) (set_index (VRef a)) h a is_arr
              (List.map (fun i => (i, d)) (seq 0 len))
              (get_index_total u h Hu) (set_index_total a) Hfresh (Forall_same d _ _ Hd)
              (<[a := CArr (replicate len VUndefined)]> h) (CArr (replicate len VUndefined)))
    as [(out & h' & c' & Hrun & Hsub & Hc' & Hg)|[Hrec Ht]];
    [now apply insert_subseteq | apply lookup_insert_eq | now eexists | |].
  - left. rewrite (bind_normal _ _ _ _ _ Hrun). unfold bind, ret.
    eapply collect_safe; eauto.
    intros Hp. rewrite (array_not_plain _ _ Hu) in Hp. discriminate.
  - right. split; [exact Hrec|]. now rewrite (bind_throw _ _ _ _ Ht).
Qed.

Lemma safe_tuple ds : Forall (input_safe rec) ds -> input_safe rec (tuple ds).
Proof.
  intros Hds u h. destruct (G.UnknownArray_is h u) eqn:Hu;
    [|left; now apply first_test_fails].
  rewrite (tuple_as_run _ _ _ Hu). unfold tuple_run.
  destruct (alloc (CArr (replicate (length ds) VUndefined)) h) as [a h1|x] eqn:Ha;
    [|discriminate].
  apply alloc_inv in Ha as Hinv. destruct Hinv as [Hfresh ->].
  rewrite !bind_assoc, (bind_normal _ _ _ _ _ Ha), !bind_assoc.
  destruct (run_members_safe (fun _ => true) (get_index u) (set_index (VRef a)) h a is_arr
              (by_index 0 ds)
              (get_index_total u h Hu) (set_index_total a) Hfresh (Forall_by_index 0 ds _ Hds)
              (<[a := CArr (replicate (length ds) VUndefined)]> h)
              (CArr (replicate (length ds) VUndefined)))
    as [(out & h' & c' & Hrun & Hsub & Hc' & Hg)|[Hrec Ht]];
    [now apply insert_subseteq | apply lookup_insert_eq | now eexists | |].
  - left. rewrite (bind_normal _ _ _ _ _ Hrun). unfold bind, ret.
    eapply collect_safe; eauto.
    intros Hp. rewrite (array_not_plain _ _ Hu) in Hp. discriminate.
  - right. split; [exact Hrec|]. now rewrite (bind_throw _ _ _ _ Ht).
Qed.

Lemma run_same_safe ds u :
  Forall (input_safe rec) ds ->
  forall h,
    (exists out h',
        run_same ds u h = Normal out h'
        /\ h ⊆ h'
        /\ length out = length ds
        /\ forall v, In (Right v) out ->
             (v = u \/ exists l, v = VRef l /\ h !! l = None)
             /\ (is_plain_object h u = true -> is_plain_object h' v = true))
    \/ (rec = true /\ run_same ds u h = Throw OutOfFuel).
Proof.
  induction 1 as [|d ds Hd _ IH]; intros h; simpl.
  - left. exists [], h. split; [reflexivity|]. split; [reflexivity|].
    split; [reflexivity|]. intros v [].
  - destruct (Hd u h) as [(r & h1 & Hr & Hsub1 & Hv1)|[Hrec Ht]].
    2:{ right. split; [exact Hrec|]. now rewrite (bind_throw _ _ _ _ Ht). }
    rewrite (bind_normal _ _ _ _ _ Hr).
    destruct (IH h1) as [(out & h' & Hrun & Hsub & Hlen & Hvs)|[Hrec Ht]].
    2:{ right. split; [exact Hrec|]. now rewrite (bind_throw _ _ _ _ Ht). }
    left. rewrite (bind_normal _ _ _ _ _ Hrun).
    eexists _, h'. split; [reflexivity|]. split; [now transitivity h1|].
    split; [simpl; now rewrite Hlen|].
    intros v [Hv|Hv].
    + destruct (Hv1 v Hv) as [Hfresh Hplain]. split; [exact Hfresh|].
      intros Hu. eapply plain_weaken; eauto.
    + destruct (Hvs v Hv) as [Hfresh Hplain]. split.
      * destruct Hfresh as [->|(l & -> & Hl)]; [now left|]. right. exists l.
        split; [reflexivity|]. eapply fresh_weaken; eauto.
      * intros Hu. apply Hplain. eapply plain_weaken; eauto.
Qed.

Lemma lefts_nil (out : list Result) :
  lefts out = [] -> exists vs, out = Right <$> vs.
Proof.
  induction out as [|[e|v] out IH]; simpl; intros H.
  - now exists [].
  - discriminate.
  - destruct (IH H) as (vs & ->). now exists (v :: vs).
Qed.

Lemma intersection_loop_throw ds u i as_ es h x :
  run_same ds u h = Throw x -> intersection_loop u i ds as_ es h = Throw x.
Proof.
  revert i as_ es h. induction ds as [|d ds IH]; intros i as_ es h H; simpl in *.
  - discriminate.
  - unfold bind in *. destruct (d u h) as [[e|v] h1|y]; [| |now injection H as ->].
    + apply IH. now destruct (run_same ds u h1).
    + apply IH. now destruct (run_same ds u h1).
Qed.

Lemma safe_intersection ds :
  Forall (input_safe rec) ds -> input_safe rec (intersection ds).
Proof.
  intros Hds u h. destruct ds as [|d0 ds0] eqn:Eds.
  { left. eexists _, h. split; [reflexivity|]. split; [reflexivity|].
    intros a [= <-]. auto. }
  rewrite <- Eds in *. assert (Hne : ds <> []) by (rewrite Eds; discriminate).
  destruct (run_same_safe ds u Hds h)
    as [(out & h1 & Hrun & Hsub & Hlen & Hvs)|[Hrec Ht]].
  2:{ right. split; [exact Hrec|]. unfold intersection.
      rewrite Eds. cbn [length Nat.eqb]. rewrite <- Eds.
      now rewrite (bind_throw _ _ _ _ (intersection_loop_throw _ _ 0 [] [] _ _ Ht)). }
  left. rewrite (intersection_nonempty _ _ _ _ _ Hne Hrun). cbv zeta.
  unfold bind at 1. unfold reads.
  destruct (some_not_plain h1 (fill 0 out [])) eqn:Hplain.
  - unfold bind, ret. eexists _, h1. split; [reflexivity|]. split; [exact Hsub|].
    intros a Ha. destruct (lefts out) eqn:Hl; [|discriminate]. injection Ha as <-.
    apply lefts_nil in Hl as (vs & ->).
    change (fill 0 (Right <$> vs) []) with (fill (length (@nil (option Val))) (Right <$> vs) [])
      in *.
    rewrite fill_dense in *. simpl app in *.
    unfold last_element. rewrite fmap_last.
    destruct (last vs) as [v|] eqn:Hlast.
    + simpl. assert (Hin : In (Right v : Result) (Right <$> vs)).
      { apply in_map. apply list_elem_of_In. eapply last_Some_elem_of; eauto. }
      destruct (Hvs v Hin) as [Hfresh Hp]. split; [exact Hfresh|].
      intros Hu. exfalso.
      rewrite some_not_plain_present in Hplain.
      apply existsb_exists in Hplain as (w & Hw & Hnp).
      assert (Hinw : In (Right w : Result) (Right <$> vs)) by (now apply in_map).
      destruct (Hvs w Hinw) as [_ Hpw]. rewrite (Hpw Hu) in Hnp. discriminate.
    + apply last_None in Hlast. subst vs. rewrite Eds in Hlen. discriminate.
  - destruct (merged_value _ _ Hplain) as (t & Ht & Hm).
    rewrite (bind_normal _ _ _ _ _ Hm). unfold ret. eexists _, _.
    split; [reflexivity|]. split.
    + transitivity h1; [exact Hsub | now apply insert_subseteq].
    + intros a Ha. destruct (lefts out); [|discriminate]. injection Ha as <-. split.
      * right. exists t. split; [reflexivity|]. eapply fresh_weaken; eauto.
      * intros _. simpl. now rewrite lookup_insert_eq.
Qed.

Lemma union_loop_safe ds u :
  Forall (input_safe rec) ds ->
  forall es h0 h, h0 ⊆ h ->
    returns_safely u h0 (union_loop u ds es h)
    \/ (rec = true /\ union_loop u ds es h = Throw OutOfFuel).
Proof.
  induction 1 as [|d ds Hd _ IH]; intros es h0 h Hsub; simpl.
  - left. eexists _, h. split; [reflexivity|]. split; [exact Hsub|]. discriminate.
  - destruct (Hd u h) as [(r & h1 & Hr & Hsub1 & Hv1)|[Hrec Ht]].
    2:{ right. split; [exact Hrec|]. now rewrite (bind_throw _ _ _ _ Ht). }
    rewrite (bind_normal _ _ _ _ _ Hr). destruct r as [e|v].
    + apply IH. now transitivity h.
    + left. eapply returns_safely_later; [exact Hsub|].
      eexists _, h1. split; [reflexivity|]. split; [exact Hsub1|].
      intros a [= <-]. now apply Hv1.
Qed.

Lemma safe_union ds : Forall (input_safe rec) ds -> input_safe rec (union ds).
Proof.
  intros Hds u h. destruct ds as [|d ds]; [apply safe_never|].
  rewrite union_cons. now apply union_loop_safe.
Qed.

Lemma obj_set_same k v ps : obj_lookup k ps = Some v -> obj_set k v ps = ps.
Proof.
  induction ps as [|[k0 v0] ps IH]; simpl; [discriminate|].
  destruct (String.eqb k k0) eqn:Hk.
  - apply String.eqb_eq in Hk as ->. now intros [= ->].
  - intros H. now rewrite IH.
Qed.

Lemma safe_def_lookup s (def : list (Str * Decoder)) d :
  Forall (input_safe rec) def.*2 -> def_lookup s def = Some d -> input_safe rec d.
Proof.
  induction def as [|[k d0] def IH]; intros Hall Hd; [discriminate|].
  apply Forall_cons in Hall as [Hd0 Hall]. simpl in Hd.
  destruct (String.eqb s k); [now injection Hd as <- | auto].
Qed.

Lemma safe_sum tag def :
  Forall (input_safe rec) def.*2 -> input_safe rec (sum tag def).
Proof.
  intros Hdef u h.
  destruct def as [|kd def'] eqn:Edef; [apply safe_never|]. rewrite <- Edef in *.
  assert (Hne : def <> []) by (rewrite Edef; discriminate). clear Edef.
  destruct (G.UnknownRecord_is h u) eqn:Hu.
  2:{ left. unfold sum. destruct def as [|kd0 def0]; [congruence|].
      change (Nat.eqb (length (kd0 :: def0).*1) 0) with false. cbv iota.
      now apply first_test_fails. }
  unfold G.UnknownRecord_is, is_plain_object in Hu.
  destruct u as [| | | | |l]; try discriminate.
  destruct (h !! l) as [[ps|es]|] eqn:Hl; try discriminate.
  rewrite (sum_on_record tag def l ps h Hne Hl).
  set (v := default VUndefined (obj_lookup tag ps)).
  assert (Hfail : forall x,
             returns_safely (VRef l) h
               (Normal (Left (labeled "sum" (VRef l) [(tag, leaf x v)])) h)).
  { intros x. eexists _, h. split; [reflexivity|]. split; [reflexivity|]. discriminate. }
  destruct v as [| | | |s|] eqn:Hv; try (left; apply Hfail).
  destruct (def_lookup s def) as [d|] eqn:Hd; [|left; apply Hfail].
  destruct (safe_def_lookup _ _ _ Hdef Hd (VRef l) h)
    as [(r & h1 & Hr & Hsub & Ha)|[Hrec Ht]].
  2:{ right. split; [exact Hrec|]. now rewrite (bind_throw _ _ _ _ Ht). }
  left. rewrite (bind_normal _ _ _ _ _ Hr). destruct r as [e|a].
  { eexists _, h1. split; [reflexivity|]. split; [exact Hsub|]. discriminate. }
  destruct (Ha a eq_refl) as [Hfresh Hplain].
  assert (Hpl : is_plain_object h (VRef l) = true) by (simpl; now rewrite Hl).
  specialize (Hplain Hpl). unfold is_plain_object in Hplain.
  destruct a as [| | | | |la]; try discriminate.
  destruct (h1 !! la) as [[pa|ea]|] eqn:Hla; try discriminate.
  unfold bind, set_prop, ret. rewrite Hla.
  eexists _, _. split; [reflexivity|]. split.
  - destruct Hfresh as [[= ->]|(l0 & [= <-] & Hl0)].
    + rewrite (lookup_weaken _ _ _ _ Hl Hsub) in Hla. injection Hla as <-.
      rewrite obj_set_same.
      * rewrite insert_id; [exact Hsub|]. eapply lookup_weaken; eauto.
      * unfold v in Hv. destruct (obj_lookup tag ps); simpl in Hv; congruence.
    + now apply insert_subseteq_r.
  - intros a' [= <-]. split; [exact Hfresh|]. intros _. simpl.
    now rewrite lookup_insert_eq.
Qed.

Lemma engine_input_safe d : engine rec d -> input_safe rec d.
Proof.
  revert d. apply (engine_mut rec (input_safe rec) (Forall (input_safe rec))).
  - intros. apply safe_fromRefinement.
  - apply safe_never.
  - intros. now apply safe_out_of_fuel.
  - intros. now apply safe_mapLeft.
  - intros. now apply safe_refinement.
  - intros. now apply safe_type.
  - intros. now apply safe_partial.
  - intros. now apply safe_record.
  - intros. now apply safe_array.
  - intros. now apply safe_tuple.
  - intros. now apply safe_intersection.
  - intros. now apply safe_lazy.
  - intros. now apply safe_sum.
  - intros. now apply safe_union.
  - intros. now apply safe_alt.
  - constructor.
  - intros. now constructor.
Qed.


End Frame.


(** ** The family of the engine *)

Section Family.
Import JS E DE D Run Engine.

Variable rec : bool.









Lemma engine_withExpected d x : engine rec d -> engine rec (withExpected d x).
Proof. intros Hd. apply eng_mapLeft; [exact Hd|]. intros e. apply wf_with_expected. Qed.

Lemma engine_zero : engine rec zero.
Proof. apply eng_never. Qed.

(** The unfoldings of a self-referential decoder whose body is built
    from the engine are in the family. *)
Lemma engine_self_referential body fuel :
  (forall d, engine true d -> engine true (body d)) ->
  engine true (self_referential body fuel).
Proof.
  intros Hbody. induction fuel as [|n IH]; simpl.
  - now apply eng_out_of_fuel.
  - apply eng_lazy. now apply Hbody.
Qed.

(** The decoders of the engine are among those [tuple_short_input]
    speaks of. *)
Lemma engine_preserving d : engine rec d -> preserving d.
Proof.
  intros Hd u h r h' Hr.
  destruct (engine_input_safe rec d Hd u h) as [(r' & h'' & Hr' & Hsub & _)|[_ Ht]].
  - rewrite Hr in Hr'. now injection Hr' as <- <-.
  - rewrite Hr in Ht. discriminate.
Qed.

Lemma engine_node fuel : engine true (Examples.node fuel).
Proof.
  apply engine_self_referential. intros d Hd. unfold Examples.node_body.
  apply eng_intersection.
  apply engs_cons; [|apply engs_cons; [|apply engs_nil]].
  - apply eng_type, engs_cons; [apply eng_fromRefinement | apply engs_nil].
  - apply eng_partial, engs_cons; [exact Hd | apply engs_nil].
Qed.

(** Test 5 of the specification: a list of two nodes is decoded to a new
    list of two nodes (the [undefined] link is left out); a wrong value
    in the second node is reported under [next] and then [value]; with
    too few unfoldings the run stops. *)
Example node_two_levels :
  exists a b h',
    Examples.node 3 Examples.r1 Examples.two_nodes = Normal (Right (VRef a)) h'
    /\ h' !! a = Some (CObj [("value", Examples.one); ("next", VRef b)])
    /\ h' !! b = Some (CObj [("value", VNum (S754_finite false 1 1))]).
Proof. eexists _, _, _. split; [vm_compute; reflexivity|]. split; reflexivity. Qed.

Example node_failure_path :
  exists h',
    Examples.node 3 Examples.r1 Examples.bad_node
    = Normal
        (Left
           (And "intersection" Examples.r1
              [Labeled "partial" Examples.r1
                 [("next",
                   And "intersection" (VRef 2%positive)
                     [Labeled "type" (VRef 2%positive)
                        [("value", Leaf "number" (VStr "x"))]])]])) h'.
Proof. eexists. vm_compute. reflexivity. Qed.

Example node_out_of_fuel :
  Examples.node 1 Examples.r1 Examples.two_nodes = Throw OutOfFuel.
Proof. reflexivity. Qed.

(** [map] and [of] of the instance are not in the family: the function
    given to [map] can return an object that is part of the input, and
    [sum] then assigns the tag to that object. Here the member of the sum
    returns the [inner] record of [{ t: "A", inner: {} }]. *)
Lemma sum_over_map_changes_inner :
  exists r h',
    sum "t" [("A", map UnknownRecord Examples.inner)] Examples.r1 Examples.nested
    = Normal r h'
    /\ Examples.nested !! 2%positive = Some (CObj [])
    /\ h' !! 2%positive = Some (CObj [("t", VStr "A")]).
Proof. eexists _, _. split; [vm_compute; reflexivity|]. split; reflexivity. Qed.

End Family.

(** ** The first test of the structural decoders *)

Section FirstTest.
Import JS E DE D Run.
Local Open Scope js_scope.

Lemma not_record_leaf (k : Val -> M Result) u h :
  is_plain_object h u = false ->
  (let* e := UnknownRecord u in
   match e with Left _ => ret e | Right r => k r end) h
  = Normal (Left (Leaf "Record<string, unknown>" u)) h.
Proof.
  intros Hu. unfold UnknownRecord, fromRefinement, bind, reads, fromPredicate.
  unfold G.UnknownRecord_is. now rewrite Hu.
Qed.

Lemma not_array_leaf (k : Val -> M Result) u h :
  is_array h u = false ->
  (let* e := UnknownArray u in
   match e with Left _ => ret e | Right r => k r end) h
  = Normal (Left (Leaf "Array<unknown>" u)) h.
Proof.
  intros Hu. unfold UnknownArray, fromRefinement, bind, reads, fromPredicate.
  unfold G.UnknownArray_is. now rewrite Hu.
Qed.

Lemma sum_not_record tag (def : list (Str * Decoder)) u h :
  def <> [] ->
  is_plain_object h u = false ->
  sum tag def u h = Normal (Left (Leaf "Record<string, unknown>" u)) h.
Proof.
  intros Hdef Hu. unfold sum. destruct def as [|kd def]; [congruence|].
  change (Nat.eqb (length (kd :: def).*1) 0) with false. cbv iota.
  now apply not_record_leaf.
Qed.

(** [type], [partial], [record] and a [sum] with at least one member
    fail on an input that is not a plain record with the leaf of
    [UnknownRecord], and [array] and [tuple] on an input that is not an
    array with the leaf of [UnknownArray]: no member decoder is applied,
    whatever it is, nothing is allocated and the store is the same. *)
Theorem structural_first_test (u : Val) (h : Heap) :
  (is_plain_object h u = false ->
   forall ds d tag def,
     def <> [] ->
     let e := Leaf "Record<string, unknown>" u in
     type ds u h = Normal (Left e) h
     /\ partial ds u h = Normal (Left e) h
     /\ record d u h = Normal (Left e) h
     /\ sum tag def u h = Normal (Left e) h)
  /\ (is_array h u = false ->
      forall ds d,
        let e := Leaf "Array<unknown>" u in
        array d u h = Normal (Left e) h
        /\ tuple ds u h = Normal (Left e) h).
Proof.
  split.
  - intros Hu ds d tag def Hdef e. repeat apply conj.
    + now apply not_record_leaf.
    + now apply not_record_leaf.
    + now apply not_record_leaf.
    + now apply sum_not_record.
  - intros Hu ds d e. split; now apply not_array_leaf.
Qed.

End FirstTest.

(** The witness of [structural_first_test]: an array is not a record and
    a record is not an array; the members would throw if they were
    applied. *)
Lemma structural_first_test_witness :
  let boom : D.Decoder := fun _ => JS.throw JS.Unsupported in
  D.type [("a", boom)] Examples.a2 Examples.store
  = JS.Normal (E.Left (DE.Leaf "Record<string, unknown>" Examples.a2)) Examples.store
  /\ D.sum "_tag" [("A", boom)] JS.VNull Examples.store
     = JS.Normal (E.Left (DE.Leaf "Record<string, unknown>" JS.VNull)) Examples.store
  /\ D.array boom Examples.r1 Examples.store
     = JS.Normal (E.Left (DE.Leaf "Array<unknown>" Examples.r1)) Examples.store
  /\ D.tuple [boom] (JS.VStr "ab") Examples.store
     = JS.Normal (E.Left (DE.Leaf "Array<unknown>" (JS.VStr "ab"))) Examples.store.
Proof.
  intros boom. repeat apply conj.
  - apply (proj1 (structural_first_test Examples.a2 Examples.store) eq_refl
             [("a", boom)] boom "_tag" [("A", boom)]). discriminate.
  - apply (proj1 (structural_first_test JS.VNull Examples.store) eq_refl
             [("a", boom)] boom "_tag" [("A", boom)]). discriminate.
  - apply (proj2 (structural_first_test Examples.r1 Examples.store) eq_refl [boom] boom).
  - apply (proj2 (structural_first_test (JS.VStr "ab") Examples.store) eq_refl [boom] boom).
Defined.

(** ** The instance: [alt], [zero], [map], [of] and [ap] *)

Section Instance.
Import JS E DE D Run.
Local Open Scope js_scope.

(** [alt] with [zero]: [zero] on the left is neutral; [alt] is
    associative; a success of the first alternative is the result and the
    second alternative is not built; on a success [alt] and the [union] of
    the same two decoders agree; and [zero] on the right is neutral for
    the successes only, the error of a failure being replaced by the leaf
    of [never]. *)
Theorem alt_laws (fx fy fz : Decoder) (u : Val) (h : Heap) :
  alt zero (fun _ => fx) u h = fx u h
  /\ alt (alt fx (fun _ => fy)) (fun _ => fz) u h
     = alt fx (fun _ => alt fy (fun _ => fz)) u h
  /\ (forall a h1 (g : unit -> Decoder),
        fx u h = Normal (Right a) h1 -> alt fx g u h = Normal (Right a) h1)
  /\ (forall a h1,
        alt fx (fun _ => fy) u h = Normal (Right a) h1
        <-> union [fx; fy] u h = Normal (Right a) h1)
  /\ (forall e h1,
        fx u h = Normal (Left e) h1 ->
        alt fx (fun _ => zero) u h = Normal (Left (Leaf "never" u)) h1).
Proof.
  repeat apply conj.
  - reflexivity.
  - unfold alt, bind, ret. destruct (fx u h) as [[e|a] h1|x]; reflexivity.
  - intros a h1 g Hx. unfold alt. now rewrite (bind_normal _ _ _ _ _ Hx).
  - intros a h1. unfold alt, union, union_loop, bind, ret.
    destruct (fx u h) as [[e|b] h2|x]; [|reflexivity|reflexivity].
    destruct (fy u h2) as [[e'|b] h3|x]; [|reflexivity|reflexivity].
    split; discriminate.
  - intros e h1 Hx. unfold alt. now rewrite (bind_normal _ _ _ _ _ Hx).
Qed.

(** [map] is a functor on decoders and [of] is its unit: mapping the
    identity changes nothing, two maps compose, the function is not
    applied to a failure, which is handed on with the store the decoder
    left, and mapping [of a] is [of] of the image of [a]. *)
Theorem map_laws (fa : Decoder) (f g : Heap -> Val -> Val) (a : Val) (u : Val) (h : Heap) :
  map fa (fun _ x => x) u h = fa u h
  /\ map (map fa f) g u h = map fa (fun h x => g h (f h x)) u h
  /\ (forall e h1, fa u h = Normal (Left e) h1 -> map fa f u h = Normal (Left e) h1)
  /\ map (of_ a) f u h = of_ (f h a) u h.
Proof.
  repeat apply conj.
  - unfold map, bind, ret, reads. destruct (fa u h) as [[e|x] h1|x]; reflexivity.
  - unfold map, bind, ret, reads. destruct (fa u h) as [[e|x] h1|x]; reflexivity.
  - intros e h1 Hfa. unfold map. now rewrite (bind_normal _ _ _ _ _ Hfa).
  - reflexivity.
Qed.

(** [ap] applies both decoders to the input, the decoder of the function
    first, also when that one has failed: the store is the one left by the
    second decoder. When both succeed the result is the function applied
    to the value. When the first fails its error is the result, and an
    error of the second is dropped: errors are not accumulated. With
    [of f] for the function, [ap] is [map]. *)
Theorem ap_spec (fab : Val -> M (Either DecodeError (Heap -> Val -> Val)))
  (fa : Decoder) (u : Val) (h : Heap) :
  (forall mab h1 ma h2,
      fab u h = Normal mab h1 -> fa u h1 = Normal ma h2 ->
      ap fab fa u h =
      Normal (match mab, ma with
              | Left e, _ => Left e
              | Right _, Left e => Left e
              | Right f, Right a => Right (f h2 a)
              end) h2)
  /\ (forall mab h1 x,
        fab u h = Normal mab h1 -> fa u h1 = Throw x -> ap fab fa u h = Throw x)
  /\ (forall f, ap (fun _ => ret (Right f)) fa u h = map fa f u h).
Proof.
  repeat apply conj.
  - intros mab h1 ma h2 Hf Ha. unfold ap.
    rewrite (bind_normal _ _ _ _ _ Hf), (bind_normal _ _ _ _ _ Ha).
    unfold reads. now destruct mab, ma.
  - intros mab h1 x Hf Ha. unfold ap.
    now rewrite (bind_normal _ _ _ _ _ Hf), (bind_throw _ _ _ _ Ha).
  - intros f. unfold ap, map, bind, ret, reads.
    destruct (fa u h) as [[e|a] h1|x]; reflexivity.
Qed.

End Instance.

(** The witness of [alt_laws]: [string] succeeds on a string, and the
    second alternative, which would throw, is not applied. *)
Lemma alt_laws_witness :
  D.alt D.string (fun _ _ => JS.throw JS.Unsupported) (JS.VStr "a") ∅
  = JS.Normal (E.Right (JS.VStr "a")) ∅
  /\ D.alt D.string (fun _ => D.zero) JS.VNull ∅
     = JS.Normal (E.Left (DE.Leaf "never" JS.VNull)) ∅.
Proof.
  split.
  - apply (alt_laws D.string D.string D.string (JS.VStr "a") ∅). reflexivity.
  - apply (alt_laws D.string D.string D.string JS.VNull ∅ : _ /\ _ /\ _ /\ _ /\ _)
      with (e := DE.Leaf "string" JS.VNull). reflexivity.
Defined.

(** The witness of [map_laws]: [number] fails on a string, and the
    function is not applied. *)
Lemma map_laws_witness :
  D.map D.number (fun _ _ => JS.VNull) (JS.VStr "a") ∅
  = JS.Normal (E.Left (DE.Leaf "number" (JS.VStr "a"))) ∅.
Proof.
  apply (map_laws D.number (fun _ _ => JS.VNull) (fun _ x => x) JS.VNull (JS.VStr "a") ∅).
  reflexivity.
Defined.

(** The witness of [ap_spec]: the decoder of the function fails and the
    second decoder fails too; the second error is not part of the result.
    When the second decoder throws, so does [ap], although the first has
    failed. *)
Lemma ap_spec_witness :
  let fab : JS.Val -> JS.M (E.Either DE.DecodeError (JS.Heap -> JS.Val -> JS.Val)) :=
    fun u => JS.ret (E.Left (DE.Leaf "function" u)) in
  D.ap fab D.number (JS.VStr "a") ∅
  = JS.Normal (E.Left (DE.Leaf "function" (JS.VStr "a"))) ∅
  /\ D.ap fab (fun _ => JS.throw JS.Unsupported) (JS.VStr "a") ∅ = JS.Throw JS.Unsupported.
Proof.
  intros fab. split.
  - apply (proj1 (ap_spec fab D.number (JS.VStr "a") ∅)
             (E.Left (DE.Leaf "function" (JS.VStr "a"))) ∅
             (E.Left (DE.Leaf "number" (JS.VStr "a"))) ∅); reflexivity.
  - apply (proj1 (proj2 (ap_spec fab (fun _ => JS.throw JS.Unsupported) (JS.VStr "a") ∅))
             (E.Left (DE.Leaf "function" (JS.VStr "a"))) ∅ JS.Unsupported); reflexivity.
Defined.

(** ** [mapLeft], [withExpected] and [literalsOr] *)

Section Relabel.
Import JS E DE D Run.
Local Open Scope js_scope.

Variable showLiteral : S.Literal -> Str.

Lemma with_expected_twice x y e : with_expected y (with_expected x e) = with_expected y e.
Proof. now destruct e. Qed.

Lemma with_expected_restore x e : with_expected (expected e) (with_expected x e) = e.
Proof. now destruct e. Qed.

(** [withExpected] changes the label of the root of a failure and
    nothing else: a success and the store are those of the decoder, the
    failure has the new label, the same actual value and the same
    children (putting the old label back gives the error of the decoder),
    and it has no empty list of children when the error of the decoder
    has none. Of two labels the outer one is kept, and two [mapLeft]
    compose. *)
Theorem withExpected_spec (d : Decoder) (x y : Str) (f g : DecodeError -> DecodeError)
  (u : Val) (h : Heap) :
  (forall a h1, d u h = Normal (Right a) h1 ->
     withExpected d x u h = Normal (Right a) h1)
  /\ (forall e h1, d u h = Normal (Left e) h1 ->
        exists e', withExpected d x u h = Normal (Left e') h1
                   /\ expected e' = x
                   /\ actual e' = actual e
                   /\ with_expected (expected e) e' = e
                   /\ (wf e -> wf e'))
  /\ withExpected (withExpected d x) y u h = withExpected d y u h
  /\ mapLeft (mapLeft d f) g u h = mapLeft d (fun e => g (f e)) u h.
Proof.
  repeat apply conj.
  - intros a h1 Hd. unfold withExpected, mapLeft.
    now rewrite (bind_normal _ _ _ _ _ Hd).
  - intros e h1 Hd. exists (with_expected x e). unfold withExpected, mapLeft.
    rewrite (bind_normal _ _ _ _ _ Hd). split; [reflexivity|].
    split; [now destruct e|]. split; [now destruct e|].
    split; [apply with_expected_restore | now destruct e].
  - unfold withExpected, mapLeft, bind, ret.
    destruct (d u h) as [[e|a] h1|z]; try reflexivity.
    simpl. now rewrite with_expected_twice.
  - unfold mapLeft, bind, ret. destruct (d u h) as [[e|a] h1|z]; reflexivity.
Qed.

(** [literalsOr]: one of the literals is accepted as it is, and the
    decoder is not applied; on any other input the success of the decoder
    is the result, and its error [e] is reported after the leaf of the
    literals, under [Or "union"]. *)
Theorem literalsOr_spec (as_ : list S.Literal) (decoder : Decoder) (u : Val) (h : Heap) :
  ((exists a, In a as_ /\ strict_equals (S.literal_value a) u = true) ->
   literalsOr showLiteral as_ decoder u h = Normal (Right u) h)
  /\ ((forall a, In a as_ -> strict_equals (S.literal_value a) u = false) ->
      (forall v h1, decoder u h = Normal (Right v) h1 ->
         literalsOr showLiteral as_ decoder u h = Normal (Right v) h1)
      /\ (forall e h1, decoder u h = Normal (Left e) h1 ->
            literalsOr showLiteral as_ decoder u h
            = Normal (Left (Or "union" u
                              [Leaf (join " | " (List.map showLiteral as_)) u; e])) h1)).
Proof.
  assert (Hlit : literals showLiteral as_ u h
                 = Normal (if existsb (fun a => strict_equals (S.literal_value a) u) as_
                           then Right u
                           else Left (Leaf (join " | " (List.map showLiteral as_)) u)) h)
    by reflexivity.
  unfold literalsOr, union, union_loop. rewrite (bind_normal _ _ _ _ _ Hlit). split.
  - intros (a & Hin & Heq).
    assert (Hex : existsb (fun a => strict_equals (S.literal_value a) u) as_ = true)
      by (apply existsb_exists; eauto).
    now rewrite Hex.
  - intros Hnone.
    assert (Hex : existsb (fun a => strict_equals (S.literal_value a) u) as_ = false).
    { destruct (existsb _ as_) eqn:Hex; [|reflexivity].
      apply existsb_exists in Hex as (a & Hin & Heq). rewrite (Hnone a Hin) in Heq.
      discriminate. }
    rewrite Hex. split.
    + intros v h1 Hd. now rewrite (bind_normal _ _ _ _ _ Hd).
    + intros e h1 Hd. now rewrite (bind_normal _ _ _ _ _ Hd).
Qed.

End Relabel.

(** The witness of [withExpected_spec]: [type] with a failing field under
    the label ["Person"]. *)
Lemma withExpected_spec_witness :
  exists h1,
    D.withExpected (D.type [("a", D.string)]) "Person" Examples.r1 Examples.store
    = JS.Normal (E.Left (DE.Labeled "Person" Examples.r1
                           [("a", DE.Leaf "string" Examples.one)])) h1.
Proof.
  destruct (proj1 (proj2 (withExpected_spec (D.type [("a", D.string)]) "Person" "Person"
                            (fun e => e) (fun e => e) Examples.r1 Examples.store))
              (DE.Labeled "type" Examples.r1 [("a", DE.Leaf "string" Examples.one)])
              (<[8%positive := JS.CObj []]> Examples.store))
    as (e' & Hres & Hx & Ha & Hback & _); [vm_compute; reflexivity|].
  eexists. rewrite Hres. f_equal. f_equal.
  destruct e'; simpl in *; try discriminate. injection Hback as -> ->. now subst.
Defined.

(** The witness of [literalsOr_spec]: the literals ["a"] and [null] or a
    number, on [null], where [number] is not applied, and on [true]. *)
Lemma literalsOr_spec_witness :
  let show : S.Literal -> Str := fun _ => "lit" in
  D.literalsOr show [S.LString "a"; S.LNull] (fun _ => JS.throw JS.Unsupported) JS.VNull ∅
  = JS.Normal (E.Right JS.VNull) ∅
  /\ D.literalsOr show [S.LString "a"; S.LNull] D.number (JS.VBool true) ∅
     = JS.Normal (E.Left (DE.Or "union" (JS.VBool true)
                            [DE.Leaf "lit | lit" (JS.VBool true);
                             DE.Leaf "number" (JS.VBool true)])) ∅.
Proof.
  intros show. split.
  - apply (proj1 (literalsOr_spec show [S.LString "a"; S.LNull]
                    (fun _ => JS.throw JS.Unsupported) JS.VNull ∅)).
    exists S.LNull. split; [right; left; reflexivity | reflexivity].
  - apply (proj2 (literalsOr_spec show [S.LString "a"; S.LNull] D.number (JS.VBool true) ∅)).
    + intros a [<-|[<-|[]]]; reflexivity.
    + reflexivity.
Defined.

(** ** The objects built by the structural decoders *)

Section Outputs.
Import JS E DE D Run.
Local Open Scope js_scope.
Local Open Scope list_scope.



Lemma no_failure_keys {K} (out : list (K * Result)) :
  failed out = [] -> (keyed_rights out).*1 = out.*1.
Proof.
  induction out as [|[k [e|v]] out IH]; simpl; intros H; [reflexivity|discriminate|].
  f_equal. now apply IH.
Qed.



(** The array under construction after members [i], [i+1], .. have all
    succeeded. *)
Lemma run_members_array (fetch : nat -> M Val) a ms :
  Forall (fun kd => preserving kd.2) ms ->
  (forall k h x h', fetch k h = Normal x h' -> h' = h) ->
  forall i done h out h1,
    ms.*1 = seq i (length ms) ->
    length done = i ->
    h !! a = Some (CArr (done ++ replicate (length ms) VUndefined)) ->
    run_members (fun _ => true) fetch (set_index (VRef a)) ms h = Normal out h1 ->
    failed out = [] ->
    h1 !! a = Some (CArr (done ++ (keyed_rights out).*2)).
Proof.
  intros Hms Hfetch.
  induction Hms as [|[k d] ms Hd _ IH]; intros i done h out h1 Hkeys Hlen Ha H Hnone;
    simpl in H.
  - injection H as <- <-. simpl in *. exact Ha.
  - simpl in Hkeys. injection Hkeys as -> Hkeys.
    apply bind_inv in H as (x & h2 & Hx & H). apply Hfetch in Hx as ->.
    apply bind_inv in H as (e & h3 & He & H).
    apply bind_inv in H as ([] & h4 & Hst & H).
    apply bind_inv in H as (out' & h5 & Hr & [= <- <-]).
    destruct e as [err|v]; [discriminate Hnone|]. simpl in Hnone.
    apply Hd in He as Hsub. simpl in Hsub.
    assert (Ha3 : h3 !! a = Some (CArr (done ++ replicate (length ((i, d) :: ms)) VUndefined)))
      by (eapply lookup_weaken; eauto).
    unfold set_index in Hst. rewrite Ha3 in Hst. injection Hst as <-.
    assert (Hset : arr_set i v (done ++ replicate (length ((i, d) :: ms)) VUndefined)
                   = (done ++ [v]) ++ replicate (length ms) VUndefined).
    { unfold arr_set. simpl. rewrite decide_True by (rewrite length_app; simpl; lia).
      rewrite <- Hlen. rewrite insert_app_r_alt by lia. rewrite Nat.sub_diag. simpl.
      now rewrite <- app_assoc. }
    simpl in Hset. rewrite Hset in Hr. simpl. rewrite cons_middle, app_assoc.
    eapply (IH (Datatypes.S i) (done ++ [v])); eauto.
    + rewrite length_app. simpl. lia.
    + now rewrite lookup_insert_eq.
Qed.




(** On a success, [array] returns a new array of the length of the
    input, and [tuple] a new array with one element per member decoder,
    whatever the length of the input: the elements of the input after the
    last member are left out. The elements are the values returned by the
    members, in order. *)
Theorem array_outputs (l : loc) (elems : list Val) (h : Heap) :
  h !! l = Some (CArr elems) ->
  let u := VRef l in
  (forall d a out h1,
      preserving d ->
      array_run d u h = Normal (a, out) h1 -> failed out = [] ->
      array d u h = Normal (Right (VRef a)) h1
      /\ h !! a = None
      /\ h1 !! a = Some (CArr (keyed_rights out).*2)
      /\ length (keyed_rights out) = length elems)
  /\ (forall ds a out h1,
        Forall preserving ds ->
        tuple_run ds u h = Normal (a, out) h1 -> failed out = [] ->
        tuple ds u h = Normal (Right (VRef a)) h1
        /\ h !! a = None
        /\ h1 !! a = Some (CArr (keyed_rights out).*2)
        /\ length (keyed_rights out) = length ds).
Proof.
  intros Hl u.
  assert (Hu : G.UnknownArray_is h u = true)
    by (unfold G.UnknownArray_is; simpl; now rewrite Hl).
  assert (Hpure : forall (i : nat) h x h', get_index u i h = Normal x h' -> h' = h).
  { intros i h0 x h'. unfold get_index, u.
    destruct (h0 !! l) as [[ps|es]|]; try discriminate. now intros [= _ <-]. }
  split.
  - intros d a out h1 Hpres Hrun Hnone. split.
    { rewrite (array_as_run _ _ _ Hu), (bind_normal _ _ _ _ _ Hrun).
      unfold ret. simpl. now rewrite collect_no_failure. }
    unfold array_run in Hrun. apply bind_inv in Hrun as (len & h2 & Hlen & Hrun).
    unfold array_length, u in Hlen. rewrite Hl in Hlen. injection Hlen as <- <-.
    apply bind_inv in Hrun as (a' & h2 & Ha & Hrun).
    apply bind_inv in Hrun as (out' & h3 & Hrun & [= <- <- <-]).
    apply alloc_inv in Ha as [Hfresh ->]. split; [exact Hfresh|].
    pose proof (run_members_keys _ _ _ _ _ _ Hrun) as Hk0.
    rewrite keys_with_decoder in Hk0.
    assert (Hms : length (List.map (fun i : nat => (i, d)) (seq 0 (length elems)))
                  = length elems) by (now rewrite length_map, length_seq).
    split.
    + eapply (run_members_array (get_index u) a' _ (Forall_same d _ _ Hpres) Hpure
                0 []); [| reflexivity | | exact Hrun | exact Hnone].
      * now rewrite keys_with_decoder, Hms.
      * rewrite Hms. apply lookup_insert_eq.
    + rewrite <- (length_fmap fst), no_failure_keys, Hk0 by exact Hnone.
      apply length_seq.
  - intros ds a out h1 Hpres Hrun Hnone. split.
    { rewrite (tuple_as_run _ _ _ Hu), (bind_normal _ _ _ _ _ Hrun).
      unfold ret. simpl. now rewrite collect_no_failure. }
    unfold tuple_run in Hrun. apply bind_inv in Hrun as (a' & h2 & Ha & Hrun).
    apply bind_inv in Hrun as (out' & h3 & Hrun & [= <- <- <-]).
    apply alloc_inv in Ha as [Hfresh ->]. split; [exact Hfresh|].
    pose proof (run_members_keys _ _ _ _ _ _ Hrun) as Hk0.
    assert (Hms : length (by_index 0 ds) = length ds).
    { unfold by_index. rewrite length_zip, length_seq. lia. }
    assert (Hkeys : (by_index 0 ds).*1 = seq 0 (length ds)).
    { unfold by_index. apply fst_zip. now rewrite length_seq. }
    split.
    + eapply (run_members_array (get_index u) a' _ (Forall_by_index 0 ds _ Hpres) Hpure
                0 []); [| reflexivity | | exact Hrun | exact Hnone].
      * now rewrite Hms.
      * rewrite Hms. apply lookup_insert_eq.
    + rewrite <- (length_fmap fst), no_failure_keys, Hk0, Hkeys by exact Hnone.
      apply length_seq.
Qed.

End Outputs.


(** The witness of [array_outputs], on [["x", 1, true]]: [array] of a
    union that accepts the three elements returns a new array of the
    three, and a [tuple] of one decoder returns an array of one element. *)
Lemma array_outputs_witness :
  (exists a h1,
      D.array (D.union [D.string; D.number; D.boolean]) Examples.a2 Examples.store
      = JS.Normal (E.Right (JS.VRef a)) h1
      /\ h1 !! a = Some (JS.CArr [JS.VStr "x"; Examples.one; JS.VBool true]))
  /\ (exists a h1,
        D.tuple [D.string] Examples.a2 Examples.store = JS.Normal (E.Right (JS.VRef a)) h1
        /\ h1 !! a = Some (JS.CArr [JS.VStr "x"])).
Proof.
  pose proof (array_outputs 2%positive [JS.VStr "x"; Examples.one; JS.VBool true]
                Examples.store eq_refl) as (Ha & Ht).
  split.
  - edestruct (Ha (D.union [D.string; D.number; D.boolean])) as (Hres & _ & Hcell & _);
      [|vm_compute; reflexivity | reflexivity |].
    + apply (engine_preserving false), Engine.eng_union.
      repeat apply Engine.engs_cons; try apply Engine.eng_fromRefinement.
      apply Engine.engs_nil.
    + eexists _, _. split; [exact Hres | exact Hcell].
  - edestruct (Ht [D.string]) as (Hres & _ & Hcell & _);
      [repeat constructor; apply preserving_fromRefinement
      | vm_compute; reflexivity | reflexivity |].
    eexists _, _. split; [exact Hres | exact Hcell].
Defined.

(** ** One structural decoder in terms of another *)

Section Equations.
Import JS E DE D Run.
Local Open Scope js_scope.
Local Open Scope list_scope.

Lemma collect_relabel_Labeled x y u a (out : list (Str * Result)) :
  E.mapLeft (with_expected y) (collect (Labeled x u) a out) = collect (Labeled y u) a out.
Proof. unfold collect. now destruct (keyed_lefts out). Qed.

Lemma collect_relabel_Indexed x y u a (out : list (nat * Result)) :
  E.mapLeft (with_expected y) (collect (Indexed x u) a out) = collect (Indexed y u) a out.
Proof. unfold collect. now destruct (keyed_lefts out). Qed.

Lemma withExpected_unfold (d : Decoder) y u h :
  withExpected d y u h
  = match d u h with
    | Normal e h1 => Normal (E.mapLeft (with_expected y) e) h1
    | Throw x => Throw x
    end.
Proof. reflexivity. Qed.

Lemma by_index_replicate i n (d : Decoder) :
  by_index i (replicate n d) = List.map (fun j => (j, d)) (seq i n).
Proof.
  unfold by_index. rewrite length_replicate. revert i.
  induction n as [|n IH]; intros i; simpl; [reflexivity|]. f_equal. apply IH.
Qed.

(** [array] on an array of [n] elements is the [tuple] of [n] copies of
    its decoder, and [record] on a record is the [type] that declares the
    keys of the record, each with the decoder of [record]; the label of
    the failure apart. This holds for any member decoder. *)
Theorem uniform_as_declared (d : Decoder) (l : loc) (h : Heap) :
  (forall elems,
      h !! l = Some (CArr elems) ->
      array d (VRef l) h
      = withExpected (tuple (replicate (length elems) d)) "array" (VRef l) h)
  /\ (forall ps,
        h !! l = Some (CObj ps) ->
        record d (VRef l) h
        = withExpected (type (List.map (fun k => (k, d)) ps.*1)) "record" (VRef l) h).
Proof.
  split.
  - intros elems Hl.
    assert (Hu : G.UnknownArray_is h (VRef l) = true)
      by (unfold G.UnknownArray_is; simpl; now rewrite Hl).
    rewrite withExpected_unfold, (array_as_run _ _ _ Hu), (tuple_as_run _ _ _ Hu).
    unfold array_run, tuple_run. rewrite length_replicate, by_index_replicate.
    unfold bind, ret, array_length. rewrite Hl.
    destruct (alloc _ h) as [a h1|x]; [|reflexivity].
    destruct (run_members _ _ _ _ h1) as [out h2|x]; [|reflexivity].
    simpl. now rewrite collect_relabel_Indexed.
  - intros ps Hl.
    assert (Hu : G.UnknownRecord_is h (VRef l) = true)
      by (unfold G.UnknownRecord_is; simpl; now rewrite Hl).
    rewrite withExpected_unfold, (record_as_run _ _ _ Hu), (type_as_run _ _ _ Hu).
    unfold record_run, type_run. unfold bind, ret.
    destruct (alloc _ h) as [a h1|x] eqn:Ha; [|reflexivity].
    unfold own_keys. rewrite (alloc_lookup _ _ _ _ _ _ Ha Hl).
    destruct (run_members _ _ _ _ h1) as [out h2|x]; [|reflexivity].
    simpl. now rewrite collect_relabel_Labeled.
Qed.



End Equations.

(** The witness of [uniform_as_declared]: [array] of [number] on
    [["x", 1, true]] fails as the [tuple] of three [number]s, at the
    indices 0 and 2, and [record] of [string] on
    [{ a: 1, b: "x", c: true }] as the [type] of the three keys. *)
Lemma uniform_as_declared_witness :
  D.array D.number Examples.a2 Examples.store
  = D.withExpected (D.tuple [D.number; D.number; D.number]) "array"
      Examples.a2 Examples.store
  /\ D.record D.string Examples.r1 Examples.store
     = D.withExpected (D.type [("a", D.string); ("b", D.string); ("c", D.string)]) "record"
         Examples.r1 Examples.store.
Proof.
  split.
  - apply (proj1 (uniform_as_declared D.number 2%positive Examples.store)
             [JS.VStr "x"; Examples.one; JS.VBool true]). reflexivity.
  - apply (proj2 (uniform_as_declared D.string 1%positive Examples.store)
             [("a", Examples.one); ("b", JS.VStr "x"); ("c", JS.VBool true)]). reflexivity.
Defined.


(** ** The decoders of schemas *)

Section Schemas.
Import JS E DE D Run Engine Schema.
Local Open Scope js_scope.
Local Open Scope list_scope.

Variable showLiteral : S.Literal -> Str.







(** *** Values of a closed store *)

















(** *** The verdict of a decoder *)























(** *** Missing members *)





End Schemas.




(** ** The values decoded by the decoders of schemas *)

Section Conformance.
Import JS E DE D Run Engine Schema.
Local Open Scope js_scope.
Local Open Scope list_scope.

Variable showLiteral : S.Literal -> Str.










(** *** The successes of the members, by key and by position *)












Lemma NoDup_key_inj {X} (key : X -> Str) (xs : list X) x y :
  NoDup (key <$> xs) -> In x xs -> In y xs -> key x = key y -> x = y.
Proof.
  induction xs as [|z xs IH]; simpl; [intros _ []|].
  intros Hnd Hx Hy Hk. apply NoDup_cons in Hnd as [Hz Hnd].
  destruct Hx as [->|Hx], Hy as [->|Hy]; auto.
  - exfalso. apply Hz. rewrite Hk. apply list_elem_of_In, in_map_iff. eauto.
  - exfalso. apply Hz. rewrite <- Hk. apply list_elem_of_In, in_map_iff. eauto.
Qed.

Lemma filter_In_keys {X} (key : X -> Str) (f : X -> bool) (xs : list X) x :
  NoDup (key <$> xs) -> In x xs -> f x = false ->
  ~ In (key x) (key <$> List.filter f xs).
Proof.
  intros Hnd Hx Hf Hin. apply in_map_iff in Hin as (y & Hk & Hy).
  apply filter_In in Hy as [Hy Hfy].
  assert (y = x) by (eapply NoDup_key_inj; eauto). subst y. congruence.
Qed.












End Conformance.


(** The merge of [intersection] is shallow, which is why the schemas of
    [decoded_value_conforms] have no [intersection]: on
    [{ a: { b: "x", c: 1 } }] the two members return [{ a: { b: "x" } }]
    and [{ a: { c: 1 } }], the merged record is [{ a: { c: 1 } }], and it is
    not a value of the first member. *)
Example intersection_merge_is_shallow :
  let show : S.Literal -> Str := fun _ => "lit" in
  let first := Schema.SType [("a", Schema.SType [("b", Schema.SString)])] in
  let second := Schema.SType [("a", Schema.SType [("c", Schema.SNumber)])] in
  exists a b h',
    Schema.decoder show (Schema.SIntersection [first; second]) (JS.VRef 1%positive)
      Examples.deep
    = JS.Normal (E.Right (JS.VRef a)) h'
    /\ h' !! a = Some (JS.CObj [("a", JS.VRef b)])
    /\ h' !! b = Some (JS.CObj [("c", Examples.one)])
    /\ Schema.accepts h' first (JS.VRef a) = false.
Proof.
  intros show first second. eexists _, _, _.
  split; [vm_compute; reflexivity|]. repeat split; reflexivity.
Qed.

(** ** Empty inputs and empty declarations *)

Section Empty.
Import JS E DE D Run.
Local Open Scope js_scope.

Lemma fresh_other (h : Heap) l c : h !! l = Some c -> l <> fresh (dom h).
Proof.
  intros Hl ->. pose proof (is_fresh (dom h)) as Hf.
  apply not_elem_of_dom in Hf. congruence.
Qed.

(** [record] on a record without keys and [array] on an array without
    elements succeed with a new empty record and a new empty array, and
    the member decoder is not applied, whatever it is. [type] and
    [partial] that declare no key succeed on every record with a new empty
    record, and the [tuple] of no decoder on every array with a new empty
    array. *)
Theorem empty_inputs (d : Decoder) (l : loc) (h : Heap) :
  let a := fresh (dom h) in
  (h !! l = Some (CObj []) ->
   record d (VRef l) h = Normal (Right (VRef a)) (<[a := CObj []]> h))
  /\ (h !! l = Some (CArr []) ->
      array d (VRef l) h = Normal (Right (VRef a)) (<[a := CArr []]> h))
  /\ (forall ps,
        h !! l = Some (CObj ps) ->
        type [] (VRef l) h = Normal (Right (VRef a)) (<[a := CObj []]> h)
        /\ partial [] (VRef l) h = Normal (Right (VRef a)) (<[a := CObj []]> h))
  /\ (forall es,
        h !! l = Some (CArr es) ->
        tuple [] (VRef l) h = Normal (Right (VRef a)) (<[a := CArr []]> h)).
Proof.
  intros a. repeat apply conj.
  - intros Hl. unfold record, UnknownRecord, fromRefinement, bind, reads, fromPredicate,
      G.UnknownRecord_is, is_plain_object, alloc, own_keys. rewrite Hl. fold a.
    assert (Hne : a <> l) by (intros Heq; exact (fresh_other h l _ Hl (eq_sym Heq))).
    rewrite lookup_insert_ne by exact Hne. rewrite Hl. reflexivity.
  - intros Hl. unfold array, UnknownArray, fromRefinement, bind, reads, fromPredicate,
      G.UnknownArray_is, is_array, array_length, alloc. rewrite Hl. cbv beta iota.
    rewrite Hl. reflexivity.
  - intros ps Hl. unfold type, partial, UnknownRecord, fromRefinement, bind, reads,
      fromPredicate, G.UnknownRecord_is, is_plain_object, alloc. rewrite Hl.
    split; reflexivity.
  - intros es Hl. unfold tuple, UnknownArray, fromRefinement, bind, reads, fromPredicate,
      G.UnknownArray_is, is_array, alloc. rewrite Hl. reflexivity.
Qed.

End Empty.

(** The witness of [empty_inputs], with a member that would throw, on a
    store with an empty record and an empty array. *)
Lemma empty_inputs_witness :
  let boom : D.Decoder := fun _ => JS.throw JS.Unsupported in
  let h : JS.Heap := <[1%positive := JS.CObj []]> (<[2%positive := JS.CArr []]> ∅) in
  (exists a, D.record boom (JS.VRef 1%positive) h
             = JS.Normal (E.Right (JS.VRef a)) (<[a := JS.CObj []]> h))
  /\ (exists a, D.array boom (JS.VRef 2%positive) h
                = JS.Normal (E.Right (JS.VRef a)) (<[a := JS.CArr []]> h)).
Proof.
  intros boom h. split.
  - eexists. apply (proj1 (empty_inputs boom 1%positive h)). reflexivity.
  - eexists. apply (proj1 (proj2 (empty_inputs boom 2%positive h))). reflexivity.
Defined.

(** ** The shape of the report *)

Section ReportShape.
Import JS DE Tree Report.
Local Open Scope list_scope.

Variable JSON_stringify : Heap -> Val -> option Str.
Variable h : Heap.

Lemma length_flat_map {A B} (f : A -> list B) (g : A -> nat) l :
  Forall (fun x => length (f x) = g x) l ->
  length (flat_map f l) = list_sum (List.map g l).
Proof.
  induction 1 as [|x l Hx _ IH]; simpl; [reflexivity|].
  now rewrite length_app, Hx, IH.
Qed.

Lemma report_length e :
  forall d p, length (report JSON_stringify h d p e) = size e.
Proof.
  induction e as [x a|x a es IH|x a es IH|x a es IH|x a es IH] using DE.DecodeError_ind;
    intros d p; cbn [report size length]; f_equal.
  - apply length_flat_map. eapply Forall_impl; [exact IH|]. intros [i c] Hc. apply Hc.
  - apply length_flat_map. eapply Forall_impl; [exact IH|]. intros [k c] Hc. apply Hc.
  - apply length_flat_map. eapply Forall_impl; [exact IH|]. intros c Hc. apply Hc.
  - apply length_flat_map. eapply Forall_impl; [exact IH|]. intros c Hc. apply Hc.
Qed.

(** The tree of [toTree] has one node for every node of the error:
    nothing is left out and nothing is repeated. The label given by
    [withExpected] changes the root of the tree only: with the new label
    the subtrees are the same, and the root says the new label. *)
Theorem report_shape (e : DecodeError) (x : Str) :
  length (lines 0 (toTree JSON_stringify h e)) = size e
  /\ forest (toTree JSON_stringify h (with_expected x e))
     = forest (toTree JSON_stringify h e)
  /\ value (toTree JSON_stringify h (with_expected x e))
     = ("Cannot decode " ++ template (JSON_stringify h (actual e)) ++ ", expected " ++ x)%string.
Proof.
  split; [|split].
  - rewrite <- (prefixed_empty (toTree JSON_stringify h e)), toTree_report.
    apply report_length.
  - now destruct e.
  - now destruct e.
Qed.

End ReportShape.

(** ** The members that a failure lists *)

Section Localisation.
Import JS E DE D Run Engine Schema.
Local Open Scope js_scope.
Local Open Scope list_scope.

Variable showLiteral : S.Literal -> Str.




End Localisation.


(** ** The values that a failure holds *)

Section Located.
Import JS E DE D Run Engine Schema.
Local Open Scope js_scope.
Local Open Scope list_scope.

Variable showLiteral : S.Literal -> Str.











End Located.

